(** * Bounded channel and stream socket adapter of the q library

    A shallow embedding of
    - [libs/q/include/q/channel.hpp]   ([q::detail::shared_channel] and the
      [q::channel] constructors), and
    - [libs/q-io/src/impl/tcp_socket.cpp] ([q::io::tcp_socket::pimpl]),
    followed by the properties of these two that the specification states.

    Conventions.  [std::size_t] is a 64-bit unsigned integer, kept as a [Z]
    with the wrap-around of its arithmetic written out.  Heap objects that
    the code shares through [std::shared_ptr] live in an explicit store and
    are named by their index.  Every operation of the channel runs under the
    channel mutex in the source, so one operation is one atomic step here;
    what an operation does to the outside (the atomic stores on [paused_]
    and the callbacks it invokes) is returned as a list of events, oldest
    first. *)

From Stdlib Require Import ZArith List Bool Lia.
From stdpp Require Import base option list.

Import ListNotations.
Local Open Scope Z_scope.

(** ** [std::size_t] *)

Definition size_bits : Z := 64.
Definition size_modulus : Z := 2 ^ size_bits.

(** The value an unsigned computation leaves in a [std::size_t]. *)
Definition to_size (z : Z) : Z := z mod size_modulus.

(** [std::list::size], [std::queue::size]. *)
Definition size {A : Type} (l : list A) : Z := Z.of_nat (length l).

(** A flag counted as a number. *)
Definition b2z (b : bool) : Z := if b then 1 else 0.

(** A [q::task] ([std::function< void( ) >]) is known by its identity. *)
Definition task : Type := nat.

(** A [q::scope] owned by the channel until it closes. *)
Definition scope : Type := nat.

Module Channel.

(** [Q_MAKE_SIMPLE_EXCEPTION( channel_closed_exception )] *)
Inductive exception : Type :=
| channel_closed_exception.

(** The result slot of a [detail::defer< T... >] and of the promise made
    from it. *)
Inductive slot (V : Type) : Type :=
| Empty
| Value (v : V)
| Failure (e : exception).

Arguments Empty {V}.
Arguments Value {V} v.
Arguments Failure {V} e.

(** Where a callback invocation comes from: [resume] (line 204) or [close]
    (line 97). *)
Inductive origin : Type :=
| ByResume
| ByClose.

(** What an operation does that the rest of the program can observe. *)
Inductive event : Type :=
| PausedStored                        (* [paused_ = true], line 110 *)
| PausedCleared                       (* [paused_.exchange( false )] was true *)
| Invoked (o : origin) (fn : task).   (* [resume_notification_] called *)

(** The value of [paused_] after the atomic operations of a history,
    when it was [paused] before; nothing if the history claims a transition
    from true to false that the flag cannot have made. *)
Fixpoint replay (paused : bool) (evs : list event) : option bool :=
  match evs with
  | [] => Some paused
  | PausedStored :: rest => replay true rest
  | PausedCleared :: rest => if paused then replay false rest else None
  | Invoked _ _ :: rest => replay paused rest
  end.

(** Every callback invocation made by [resume] comes right after a
    transition of [paused_] from true to false, and no transition is
    followed by two of them; [cleared] says that the event just before
    [evs] was such a transition. *)
Fixpoint announced (cleared : bool) (evs : list event) : bool :=
  match evs with
  | [] => true
  | PausedCleared :: rest => announced true rest
  | Invoked ByResume _ :: rest => cleared && announced false rest
  | _ :: rest => announced false rest
  end.

(** The transitions of [paused_] from true to false in a history. *)
Fixpoint transitions (evs : list event) : nat :=
  match evs with
  | [] => O
  | PausedCleared :: rest => S (transitions rest)
  | _ :: rest => transitions rest
  end.

(** The callback invocations that [resume] made in a history. *)
Fixpoint resume_invocations (evs : list event) : nat :=
  match evs with
  | [] => O
  | Invoked ByResume _ :: rest => S (resume_invocations rest)
  | _ :: rest => resume_invocations rest
  end.

Section WithValue.

Variable V : Type.

(** The fields of [shared_channel], then the two things it shares with
    its surroundings: the store of [defer] objects that [waiters_] and the
    returned promises point into, and the number of [self->resume( )]
    closures that [receive] has pushed onto [default_queue_] and that have
    not run yet. *)
Record shared_channel : Type := mk_shared_channel {
  waiters_ : list nat;
  queue_ : list V;
  closed_ : bool;
  paused_ : bool;
  buffer_count_ : Z;
  resume_count_ : Z;
  resume_notification_ : option task;
  scopes_ : list scope;
  defers : list (slot V);
  default_queue_ : nat
}.

Definition with_waiters (w : list nat) (c : shared_channel) :=
  mk_shared_channel w (queue_ c) (closed_ c) (paused_ c) (buffer_count_ c)
    (resume_count_ c) (resume_notification_ c) (scopes_ c) (defers c)
    (default_queue_ c).

Definition with_queue (q : list V) (c : shared_channel) :=
  mk_shared_channel (waiters_ c) q (closed_ c) (paused_ c) (buffer_count_ c)
    (resume_count_ c) (resume_notification_ c) (scopes_ c) (defers c)
    (default_queue_ c).

Definition with_closed (b : bool) (c : shared_channel) :=
  mk_shared_channel (waiters_ c) (queue_ c) b (paused_ c) (buffer_count_ c)
    (resume_count_ c) (resume_notification_ c) (scopes_ c) (defers c)
    (default_queue_ c).

Definition with_paused (b : bool) (c : shared_channel) :=
  mk_shared_channel (waiters_ c) (queue_ c) (closed_ c) b (buffer_count_ c)
    (resume_count_ c) (resume_notification_ c) (scopes_ c) (defers c)
    (default_queue_ c).

Definition with_resume_notification (fn : option task) (c : shared_channel) :=
  mk_shared_channel (waiters_ c) (queue_ c) (closed_ c) (paused_ c)
    (buffer_count_ c) (resume_count_ c) fn (scopes_ c) (defers c)
    (default_queue_ c).

Definition with_scopes (s : list scope) (c : shared_channel) :=
  mk_shared_channel (waiters_ c) (queue_ c) (closed_ c) (paused_ c)
    (buffer_count_ c) (resume_count_ c) (resume_notification_ c) s (defers c)
    (default_queue_ c).

Definition with_defers (d : list (slot V)) (c : shared_channel) :=
  mk_shared_channel (waiters_ c) (queue_ c) (closed_ c) (paused_ c)
    (buffer_count_ c) (resume_count_ c) (resume_notification_ c) (scopes_ c) d
    (default_queue_ c).

Definition with_default_queue (n : nat) (c : shared_channel) :=
  mk_shared_channel (waiters_ c) (queue_ c) (closed_ c) (paused_ c)
    (buffer_count_ c) (resume_count_ c) (resume_notification_ c) (scopes_ c)
    (defers c) n.

(** [default_resume_count], lines 44-47: [count * 3] is computed in
    [std::size_t]. *)
Definition default_resume_count (count : Z) : Z :=
  if count <? 3 then count else to_size (count * 3) / 4.

(** The constructor of [shared_channel], lines 58-69. *)
Definition make_shared_channel (buffer_count resume_count : Z)
  : shared_channel :=
  {| waiters_ := [];
     queue_ := [];
     closed_ := false;
     paused_ := false;
     buffer_count_ := buffer_count;
     resume_count_ := Z.min resume_count buffer_count;
     resume_notification_ := None;
     scopes_ := [];
     defers := [];
     default_queue_ := 0 |}.

(** [channel( queue, buffer_count, resume_count )], lines 475-485. *)
Definition channel (buffer_count resume_count : Z) : shared_channel :=
  make_shared_channel buffer_count resume_count.

(** [channel( queue, buffer_count )], lines 467-473. *)
Definition channel_default (buffer_count : Z) : shared_channel :=
  channel buffer_count (default_resume_count buffer_count).

(** [is_closed], lines 71-74. *)
Definition is_closed (c : shared_channel) : bool := closed_ c.

(** [should_send], lines 165-168. *)
Definition should_send (c : shared_channel) : bool :=
  negb (paused_ c) && negb (closed_ c).

(** Calling a [task] that may be empty ([if ( fn ) fn( )]). *)
Definition invoke (o : origin) (fn : option task) : list event :=
  match fn with
  | Some f => [Invoked o f]
  | None => []
  end.

(** [resume], lines 198-206. *)
Definition resume (c : shared_channel) : shared_channel * list event :=
  if paused_ c then
    (with_paused false c,
     PausedCleared :: invoke ByResume (resume_notification_ c))
  else (c, []).

(** [waiter->set_exception( channel_closed_exception( ) )] for one waiter. *)
Definition set_exception (d : list (slot V)) (waiter : nat) : list (slot V) :=
  <[waiter := Failure channel_closed_exception]> d.

(** [waiter->set_value( t )]. *)
Definition set_value (d : list (slot V)) (waiter : nat) (t : V)
  : list (slot V) :=
  <[waiter := Value t]> d.

(** [close], lines 76-98. *)
Definition close (c : shared_channel) : shared_channel * list event :=
  let c1 := with_closed true c in
  let c2 :=
    with_defers (fold_left set_exception (waiters_ c1) (defers c1)) c1 in
  let c3 := with_waiters [] c2 in
  let c4 := with_scopes [] c3 in
  (c4, invoke ByClose (resume_notification_ c4)).

(** How a call of [send] ends. *)
Inductive sent : Type :=
| Returned
| Thrown (e : exception).

(** [send], lines 100-121. *)
Definition send (t : V) (c : shared_channel)
  : sent * shared_channel * list event :=
  if closed_ c then (Thrown channel_closed_exception, c, [])
  else
    match waiters_ c with
    | [] =>
        let full := buffer_count_ c <=? size (queue_ c) in
        let c1 := if full then with_paused true c else c in
        (Returned, with_queue (queue_ c1 ++ [t]) c1,
         if full then [PausedStored] else [])
    | waiter :: rest =>
        let c1 := with_waiters rest c in
        (Returned, with_defers (set_value (defers c1) waiter t) c1, [])
    end.

(** [::q::make_shared< defer_type >( default_queue_ )]: the new object sits
    at the end of the store. *)
Definition new_defer (s : slot V) (c : shared_channel) : nat * shared_channel :=
  (length (defers c), with_defers (defers c ++ [s]) c).

(** [receive], lines 123-163.  The promise returned is the handle of its
    [defer]; [reject< arguments_type >( ... )] is a promise that is born
    failed. *)
Definition receive (c : shared_channel) : nat * shared_channel * list event :=
  match queue_ c with
  | [] =>
      if closed_ c then
        let '(p, c1) := new_defer (Failure channel_closed_exception) c in
        (p, c1, [])
      else
        let '(defer, c1) := new_defer Empty c in
        let c2 := with_waiters (waiters_ c1 ++ [defer]) c1 in
        let '(c3, evs) := resume c2 in
        (defer, c3, evs)
  | t :: rest =>
      let c1 := with_queue rest c in
      let c2 :=
        if size (queue_ c1) <? resume_count_ c1
        then with_default_queue (S (default_queue_ c1)) c1
        else c1 in
      let '(defer, c3) := new_defer Empty c2 in
      let c4 := with_defers (set_value (defers c3) defer t) c3 in
      (defer, c4, [])
  end.

(** One closure [[ self ]( ) { self->resume( ); }] taken from
    [default_queue_] and run. *)
Definition run_task (c : shared_channel) : shared_channel * list event :=
  match default_queue_ c with
  | O => (c, [])
  | S n => resume (with_default_queue n c)
  end.

(** [set_resume_notification], lines 170-175. *)
Definition set_resume_notification (fn : option task) (c : shared_channel)
  : shared_channel :=
  with_resume_notification fn c.

(** [add_scope_until_closed], lines 181-190. *)
Definition add_scope_until_closed (s : scope) (c : shared_channel)
  : shared_channel :=
  if closed_ c then c else with_scopes (scopes_ c ++ [s]) c.

(** The state of the promise that a call of [receive] returned. *)
Definition promise_of (r : nat * shared_channel * list event)
  : option (slot V) :=
  defers (snd (fst r)) !! fst (fst r).

(** At most one of the two lists of the channel has something in it. *)
Definition one_sided (c : shared_channel) : Prop :=
  queue_ c = [] \/ waiters_ c = [].

(** *** Histories *)

(** The calls that the owners of the endpoints and the executor can make. *)
Inductive op : Type :=
| Send (t : V)
| Receive
| Close
| SetResumeNotification (fn : option task)
| AddScope (s : scope)
| RunTask.

Definition step (o : op) (c : shared_channel) : shared_channel * list event :=
  match o with
  | Send t => let '(_, c1, evs) := send t c in (c1, evs)
  | Receive => let '(_, c1, evs) := receive c in (c1, evs)
  | Close => close c
  | SetResumeNotification fn => (set_resume_notification fn c, [])
  | AddScope s => (add_scope_until_closed s c, [])
  | RunTask => run_task c
  end.

(** A history run from a state, with everything it did. *)
Fixpoint run (ops : list op) (c : shared_channel)
  : shared_channel * list event :=
  match ops with
  | [] => (c, [])
  | o :: rest =>
      let '(c1, evs) := step o c in
      let '(c2, evs') := run rest c1 in
      (c2, evs ++ evs')
  end.

(** A producer that sends only while [should_send] answers true: every
    [Send] of the history happens in a state where it does. *)
Fixpoint heeds_pause (ops : list op) (c : shared_channel) : bool :=
  match ops with
  | [] => true
  | o :: rest =>
      match o with
      | Send _ => should_send c
      | _ => true
      end && heeds_pause rest (fst (step o c))
  end.

(** The closures of [default_queue_] that a history runs. *)
Fixpoint tasks_run (ops : list op) (c : shared_channel) : nat :=
  match ops with
  | [] => O
  | o :: rest =>
      (match o, default_queue_ c with
       | RunTask, S _ => 1
       | _, _ => 0
       end + tasks_run rest (fst (step o c)))%nat
  end.

(** [k] calls of [receive] in a row, with the promise each one returned. *)
Fixpoint receive_n (k : nat) (c : shared_channel)
  : list (option (slot V)) * shared_channel :=
  match k with
  | O => ([], c)
  | S k' =>
      let r := receive c in
      let '(ps, c') := receive_n k' (snd (fst r)) in
      (promise_of r :: ps, c')
  end.

(** [k] calls of [close] in a row. *)
Fixpoint close_n (k : nat) (c : shared_channel) : shared_channel * list event :=
  match k with
  | O => (c, [])
  | S k' =>
      let '(c1, evs) := close c in
      let '(c2, evs') := close_n k' c1 in
      (c2, evs ++ evs')
  end.

(** *** What a history delivers *)

(** The values of the fulfilled promises of a store, in the order of their
    handles, which is the order of the calls of [receive] that made them. *)
Fixpoint delivered (d : list (slot V)) : list V :=
  match d with
  | [] => []
  | Value v :: rest => v :: delivered rest
  | _ :: rest => delivered rest
  end.

(** The values that the calls of [send] in a history take in: those of the
    calls that return instead of throwing. *)
Fixpoint accepted (ops : list op) (c : shared_channel) : list V :=
  match ops with
  | [] => []
  | o :: rest =>
      match o with
      | Send t =>
          match fst (fst (send t c)) with
          | Returned => [t]
          | Thrown _ => []
          end
      | _ => []
      end ++ accepted rest (fst (step o c))
  end.

(** The calls of [receive] in a history. *)
Fixpoint receives (ops : list op) : nat :=
  match ops with
  | [] => O
  | Receive :: rest => S (receives rest)
  | _ :: rest => receives rest
  end.

(** The store is made of settled slots followed by one empty slot for each
    waiter, and [waiters_] lists the handles of these in order. *)
Definition parked (c : shared_channel) : Prop :=
  exists (settled : list (slot V)) (n : nat),
    defers c = settled ++ replicate n Empty /\
    waiters_ c = seq (length settled) n /\
    Forall (fun s => s <> Empty) settled.

(** What every operation keeps true of a channel. *)
Definition sound (c : shared_channel) : Prop :=
  one_sided c /\
  (closed_ c = true -> waiters_ c = [] /\ scopes_ c = []) /\
  parked c.

(** A paused channel that has been drained below its low watermark has a
    [resume] waiting on [default_queue_]. *)
Definition wakeup_pending (c : shared_channel) : Prop :=
  resume_count_ c <= buffer_count_ c /\
  (paused_ c = true -> size (queue_ c) < resume_count_ c ->
   (0 < default_queue_ c)%nat).

(** *** Endpoints and their owners *)

(** A [channel< T... >] seen from its handles: the shared channel, and how
    many copies of the [readable] and of the [writable] are alive.  The
    copies of one side share one [shared_channel_owner], whose destructor
    (lines 237-240) runs when the last of them goes. *)
Record channel_object : Type := mk_channel_object {
  shared_channel_ : shared_channel;
  readable_copies : nat;
  writable_copies : nat
}.

(** The constructors of [channel], lines 467-485: the object holds one
    handle of each side, [readable_] and [writable_]. *)
Definition make_channel (buffer_count resume_count : Z) : channel_object :=
  mk_channel_object (channel buffer_count resume_count) 1 1.

(** One copy of a handle is destroyed; the owner closes the channel when it
    was the last. *)
Definition drop_copy (copies : nat) (c : shared_channel)
  : nat * shared_channel * list event :=
  match copies with
  | O => (O, c, [])
  | S O => let '(c1, evs) := close c in (O, c1, evs)
  | S n => (n, c, [])
  end.

(** What can happen to a channel and its handles: a member of a handle is
    called, a handle is copied ([get_readable], [get_writable], a copy
    constructor), a handle is destroyed. *)
Inductive handle_op : Type :=
| Call (o : op)
| CopyReadable
| CopyWritable
| DropReadable
| DropWritable.

(** A member can be called only on a handle that is there: [receive] is a
    member of [readable], [send] and [set_resume_notification] of
    [writable], [close] and [add_scope_until_closed] of both; a [resume]
    closure holds the shared channel itself. *)
Definition callable (o : op) (obj : channel_object) : bool :=
  match o with
  | Receive => negb (Nat.eqb (readable_copies obj) 0)
  | Send _ | SetResumeNotification _ =>
      negb (Nat.eqb (writable_copies obj) 0)
  | Close | AddScope _ =>
      negb (Nat.eqb (readable_copies obj) 0) ||
      negb (Nat.eqb (writable_copies obj) 0)
  | RunTask => true
  end.

Definition handle_step (h : handle_op) (obj : channel_object)
  : channel_object * list event :=
  match h with
  | Call o =>
      if callable o obj then
        let '(c1, evs) := step o (shared_channel_ obj) in
        (mk_channel_object c1 (readable_copies obj) (writable_copies obj), evs)
      else (obj, [])
  | CopyReadable =>
      match readable_copies obj with
      | O => (obj, [])
      | S n =>
          (mk_channel_object (shared_channel_ obj) (S (S n))
             (writable_copies obj), [])
      end
  | CopyWritable =>
      match writable_copies obj with
      | O => (obj, [])
      | S n =>
          (mk_channel_object (shared_channel_ obj) (readable_copies obj)
             (S (S n)), [])
      end
  | DropReadable =>
      let '(n, c1, evs) :=
        drop_copy (readable_copies obj) (shared_channel_ obj) in
      (mk_channel_object c1 n (writable_copies obj), evs)
  | DropWritable =>
      let '(n, c1, evs) :=
        drop_copy (writable_copies obj) (shared_channel_ obj) in
      (mk_channel_object c1 (readable_copies obj) n, evs)
  end.

Fixpoint handle_run (hs : list handle_op) (obj : channel_object)
  : channel_object * list event :=
  match hs with
  | [] => (obj, [])
  | h :: rest =>
      let '(obj1, evs) := handle_step h obj in
      let '(obj2, evs') := handle_run rest obj1 in
      (obj2, evs ++ evs')
  end.

End WithValue.

Arguments shared_channel_ {V} _.
Arguments readable_copies {V} _.
Arguments writable_copies {V} _.
Arguments make_channel {V} _ _.
Arguments drop_copy {V} _ _.
Arguments Call {V} _.
Arguments CopyReadable {V}.
Arguments CopyWritable {V}.
Arguments DropReadable {V}.
Arguments DropWritable {V}.
Arguments callable {V} _ _.
Arguments handle_step {V} _ _.
Arguments handle_run {V} _ _.
Arguments delivered {V} _.
Arguments accepted {V} _ _.
Arguments receives {V} _.
Arguments parked {V} _.
Arguments sound {V} _.
Arguments wakeup_pending {V} _.
Arguments waiters_ {V} _.
Arguments queue_ {V} _.
Arguments closed_ {V} _.
Arguments paused_ {V} _.
Arguments buffer_count_ {V} _.
Arguments resume_count_ {V} _.
Arguments resume_notification_ {V} _.
Arguments scopes_ {V} _.
Arguments defers {V} _.
Arguments default_queue_ {V} _.
Arguments make_shared_channel {V} _ _.
Arguments channel {V} _ _.
Arguments channel_default {V} _.
Arguments is_closed {V} _.
Arguments should_send {V} _.
Arguments resume {V} _.
Arguments close {V} _.
Arguments send {V} _ _.
Arguments receive {V} _.
Arguments run_task {V} _.
Arguments set_resume_notification {V} _ _.
Arguments add_scope_until_closed {V} _ _.
Arguments promise_of {V} _.
Arguments Send {V} _.
Arguments Receive {V}.
Arguments Close {V}.
Arguments SetResumeNotification {V} _.
Arguments AddScope {V} _.
Arguments RunTask {V}.
Arguments step {V} _ _.
Arguments run {V} _ _.
Arguments heeds_pause {V} _ _.
Arguments tasks_run {V} _ _.
Arguments receive_n {V} _ _.
Arguments close_n {V} _ _.
Arguments one_sided {V} _.

End Channel.

Module TcpSocket.

(** A [q::byte_block]: a length and the buffer it has taken over. *)
Record byte_block : Type := mk_byte_block {
  block_size : Z;
  block_data : option nat
}.

(** [uv_buf_t]. *)
Record uv_buf_t : Type := mk_uv_buf {
  base : option nat;
  len : Z
}.

(** What [get_exception_by_errno] builds. *)
Inductive io_exception : Type :=
| by_errno (errno_ : Z).

(** One entry of [write_reqs_]. *)
Record write_info : Type := mk_write_info {
  req_ : nat;
  block_ : byte_block;
  buf_len_ : Z
}.

(** The calls that leave the adapter: into libuv, the allocator, [std::cerr]
    and the reader side of the outbound channel. *)
Inductive call : Type :=
| uv_read_start
| uv_read_stop
| uv_write (write_req : nat) (buf_len : Z)
| close_handle
| delete_buffer (buf_base : nat)
| cerr_remove_this_check
| out_read.

(** The closure that [stop_read] installs, which calls [start_read]. *)
Definition start_read_again : task := 0%nat.

(** The members of [q::writable] and [q::readable] that the adapter calls.
    [write] answers false when the channel no longer takes values. *)
Class Endpoints (chan : Type) : Type := {
  write : byte_block -> chan -> bool * chan;
  should_write : chan -> bool;
  set_resume_notification : task -> bool -> chan -> chan;
  unset_resume_notification : chan -> chan;
  close_with : option io_exception -> chan -> chan
}.

Section Adapter.

Context {chan : Type} `{Endpoints chan}.

(** [UV_EOF] of libuv. *)
Variable UV_EOF : Z.

(** [uv_error_to_errno]. *)
Variable uv_error_to_errno : Z -> Z.

(** The default of the argument of [stop_read], which the class
    declaration gives. *)
Variable reschedule_default : bool.

(** [get_exception_by_errno]. *)
Definition get_exception_by_errno (errno_ : Z) : io_exception :=
  by_errno errno_.

(** The fields of [tcp_socket::pimpl] that the adapter touches, the two
    channels its endpoints lead to, and the calls made so far.  An endpoint
    field is true while its [std::shared_ptr] is not null. *)
Record pimpl : Type := mk_pimpl {
  closed_ : bool;
  channel_in : chan;
  channel_out : chan;
  writable_in_ : bool;
  readable_out_ : bool;
  keep_alive_ : bool;
  write_reqs_ : list write_info;
  cached_bytes_ : Z;
  cache_size : Z;
  calls : list call
}.

Definition with_closed (b : bool) (p : pimpl) :=
  mk_pimpl b (channel_in p) (channel_out p) (writable_in_ p) (readable_out_ p)
    (keep_alive_ p) (write_reqs_ p) (cached_bytes_ p) (cache_size p) (calls p).

Definition with_channel_in (c : chan) (p : pimpl) :=
  mk_pimpl (closed_ p) c (channel_out p) (writable_in_ p) (readable_out_ p)
    (keep_alive_ p) (write_reqs_ p) (cached_bytes_ p) (cache_size p) (calls p).

Definition with_channel_out (c : chan) (p : pimpl) :=
  mk_pimpl (closed_ p) (channel_in p) c (writable_in_ p) (readable_out_ p)
    (keep_alive_ p) (write_reqs_ p) (cached_bytes_ p) (cache_size p) (calls p).

Definition with_writable_in (b : bool) (p : pimpl) :=
  mk_pimpl (closed_ p) (channel_in p) (channel_out p) b (readable_out_ p)
    (keep_alive_ p) (write_reqs_ p) (cached_bytes_ p) (cache_size p) (calls p).

Definition with_readable_out (b : bool) (p : pimpl) :=
  mk_pimpl (closed_ p) (channel_in p) (channel_out p) (writable_in_ p) b
    (keep_alive_ p) (write_reqs_ p) (cached_bytes_ p) (cache_size p) (calls p).

Definition with_keep_alive (b : bool) (p : pimpl) :=
  mk_pimpl (closed_ p) (channel_in p) (channel_out p) (writable_in_ p)
    (readable_out_ p) b (write_reqs_ p) (cached_bytes_ p) (cache_size p)
    (calls p).

Definition with_write_reqs (l : list write_info) (p : pimpl) :=
  mk_pimpl (closed_ p) (channel_in p) (channel_out p) (writable_in_ p)
    (readable_out_ p) (keep_alive_ p) l (cached_bytes_ p) (cache_size p)
    (calls p).

Definition with_cached_bytes (z : Z) (p : pimpl) :=
  mk_pimpl (closed_ p) (channel_in p) (channel_out p) (writable_in_ p)
    (readable_out_ p) (keep_alive_ p) (write_reqs_ p) z (cache_size p)
    (calls p).

Definition with_calls (l : list call) (p : pimpl) :=
  mk_pimpl (closed_ p) (channel_in p) (channel_out p) (writable_in_ p)
    (readable_out_ p) (keep_alive_ p) (write_reqs_ p) (cached_bytes_ p)
    (cache_size p) l.

(** *** The callbacks as state transformers

    A callback either returns, or runs into undefined behaviour (a null
    [shared_ptr] or a past-the-end iterator is dereferenced); in the second
    case the state it had reached by then is kept. *)
Inductive outcome (A : Type) : Type :=
| Ret (a : A) (p : pimpl)
| Undefined (p : pimpl).

Arguments Ret {A} a p.
Arguments Undefined {A} p.

Definition M (A : Type) : Type := pimpl -> outcome A.

Definition ret {A : Type} (a : A) : M A := fun p => Ret a p.

Definition bind {A B : Type} (m : M A) (k : A -> M B) : M B :=
  fun p =>
    match m p with
    | Ret a p1 => k a p1
    | Undefined p1 => Undefined p1
    end.

Definition undefined {A : Type} : M A := fun p => Undefined p.

Definition gets {A : Type} (f : pimpl -> A) : M A := fun p => Ret (f p) p.

Definition modify (f : pimpl -> pimpl) : M unit := fun p => Ret tt (f p).

Definition emit (c : call) : M unit :=
  modify (fun p => with_calls (calls p ++ [c]) p).

Notation "x <- m ;; k" := (bind m (fun x => k))
  (at level 100, m at next level, right associativity).
Notation "m ;; k" := (bind m (fun _ => k))
  (at level 100, right associativity).

(** [start_read], lines 89-150: hands [alloc_cb] and [read_cb] to libuv. *)
Definition start_read : M unit := emit uv_read_start.

(** [stop_read], lines 152-172. *)
Definition stop_read (reschedule : bool) : M unit :=
  emit uv_read_stop ;;
  if negb reschedule then ret tt
  else
    w <- gets writable_in_ ;;
    if w then
      modify (fun p =>
        with_channel_in
          (set_resume_notification start_read_again true (channel_in p)) p)
    else undefined.

(** [i_close_handle], of the handle base class. *)
Definition i_close_handle : M unit := emit close_handle.

(** [i_close], lines 53-87. *)
Definition i_close (status : option io_exception) : M unit :=
  closed <- gets closed_ ;;
  if closed then ret tt
  else
    modify (with_closed true) ;;
    writable_in <- gets writable_in_ ;;
    readable_out <- gets readable_out_ ;;
    modify (with_keep_alive true) ;;
    (if writable_in then
       modify (fun p =>
         with_channel_in (unset_resume_notification (channel_in p)) p) ;;
       modify (fun p =>
         with_channel_in (close_with status (channel_in p)) p)
     else ret tt) ;;
    (if readable_out then
       modify (fun p =>
         with_channel_out (close_with status (channel_out p)) p)
     else ret tt) ;;
    stop_read reschedule_default ;;
    modify (with_writable_in false) ;;
    modify (with_readable_out false) ;;
    i_close_handle.

(** [delete[ ] buf->base] under [if ( buf->base )], lines 130-131. *)
Definition free_unused (buf : uv_buf_t) : M unit :=
  match base buf with
  | Some b => emit (delete_buffer b)
  | None => ret tt
  end.

(** [read_cb], lines 103-147. *)
Definition read_cb (nread : Z) (buf : uv_buf_t) : M unit :=
  if 0 <? nread then
    let block := mk_byte_block nread (base buf) in
    w <- gets writable_in_ ;;
    if w then
      ch <- gets channel_in ;;
      let '(ok, ch1) := write block ch in
      modify (with_channel_in ch1) ;;
      if negb ok then stop_read false
      else
        ch2 <- gets channel_in ;;
        if negb (should_write ch2) then stop_read true else ret tt
    else undefined
  else
    free_unused buf ;;
    if nread =? UV_EOF then i_close None
    else if nread <? 0 then
      let errno_ := uv_error_to_errno nread in
      let err := get_exception_by_errno errno_ in
      i_close (Some err)
    else ret tt.

(** [begin_write] up to the call of [readable_out_->read], lines 174-296;
    the handlers it passes run later, from the executor. *)
Definition begin_write : M unit :=
  r <- gets readable_out_ ;;
  if negb r then ret tt else emit out_read.

(** The value handler of [begin_write], lines 236-280; [req] is the
    [uv_write_t] that [q::make_unique] returns. *)
Definition on_block (req : nat) (block : byte_block) : M unit :=
  closed <- gets closed_ ;;
  if closed then ret tt
  else
    let buf_len := block_size block in
    modify (fun p =>
      with_cached_bytes (to_size (cached_bytes_ p + buf_len)) p) ;;
    cached <- gets cached_bytes_ ;;
    limit <- gets cache_size ;;
    let should_read_more := negb (limit <=? cached) in
    modify (fun p =>
      with_write_reqs (write_reqs_ p ++ [mk_write_info req block buf_len]) p) ;;
    emit (uv_write req buf_len) ;;
    if should_read_more then begin_write else ret tt.

(** [std::find_if] over [write_reqs_] with the predicate
    [req == item.req_.get( )]: the position of the first match, or nothing
    for the end iterator. *)
Fixpoint find_if (req : nat) (l : list write_info) : option nat :=
  match l with
  | [] => None
  | item :: rest =>
      if Nat.eqb req (req_ item) then Some O
      else option_map S (find_if req rest)
  end.

(** [read_again], lines 179-229. *)
Definition read_again (req : nat) (status : Z) : M unit :=
  reqs <- gets write_reqs_ ;;
  let iter := find_if req reqs in
  (match iter with
   | None => emit cerr_remove_this_check ;; i_close None
   | Some _ => ret tt
   end) ;;
  match iter ≫= (fun i => reqs !! i) with
  | None => undefined
  | Some item =>
      let buf_size := buf_len_ item in
      modify (fun p =>
        with_write_reqs (delete (default O iter) (write_reqs_ p)) p) ;;
      size_before <- gets cached_bytes_ ;;
      modify (with_cached_bytes (to_size (size_before - buf_size))) ;;
      cached <- gets cached_bytes_ ;;
      limit <- gets cache_size ;;
      let should_write_more := (limit <=? size_before) && (cached <? limit) in
      if status =? 0 then
        if should_write_more then begin_write else ret tt
      else i_close None
  end.

(** *** Histories of the adapter *)

(** The state a callback leaves behind, however it ended. *)
Definition reached {A : Type} (o : outcome A) : pimpl :=
  match o with
  | Ret _ p => p
  | Undefined p => p
  end.

(** What libuv, the executor and the owner of the socket call on it. *)
Inductive action : Type :=
| ReadCb (nread : Z) (buf : uv_buf_t)
| OnBlock (req : nat) (block : byte_block)
| ReadAgain (req : nat) (status : Z)
| IClose (status : option io_exception)
| BeginWrite
| StartRead
| StopRead (reschedule : bool).

Definition act (a : action) : M unit :=
  match a with
  | ReadCb nread buf => read_cb nread buf
  | OnBlock req block => on_block req block
  | ReadAgain req status => read_again req status
  | IClose status => i_close status
  | BeginWrite => begin_write
  | StartRead => start_read
  | StopRead reschedule => stop_read reschedule
  end.

(** A history of calls, one after the other; nothing runs after undefined
    behaviour. *)
Fixpoint drive (l : list action) : M unit :=
  match l with
  | [] => ret tt
  | a :: rest => act a ;; drive rest
  end.

(** The bytes of the entries of [write_reqs_]. *)
Fixpoint in_flight (l : list write_info) : Z :=
  match l with
  | [] => 0
  | item :: rest => buf_len_ item + in_flight rest
  end.

(** [cached_bytes_] is the total of [write_reqs_], as a [std::size_t]. *)
Definition accounted (p : pimpl) : Prop :=
  cached_bytes_ p = to_size (in_flight (write_reqs_ p)).

(** How often the handle has been closed. *)
Fixpoint closes (l : list call) : nat :=
  match l with
  | [] => O
  | close_handle :: rest => S (closes rest)
  | _ :: rest => closes rest
  end.

(** The buffers given back to the allocator. *)
Fixpoint deletes (l : list call) : nat :=
  match l with
  | [] => O
  | delete_buffer _ :: rest => S (deletes rest)
  | _ :: rest => deletes rest
  end.

(** The reads of the outbound channel that [begin_write] has asked for. *)
Fixpoint reads_asked (l : list call) : nat :=
  match l with
  | [] => O
  | out_read :: rest => S (reads_asked rest)
  | _ :: rest => reads_asked rest
  end.

(** The writes handed to libuv. *)
Fixpoint writes_submitted (l : list call) : nat :=
  match l with
  | [] => O
  | uv_write _ _ :: rest => S (writes_submitted rest)
  | _ :: rest => writes_submitted rest
  end.

(** The reads of the outbound channel that have not brought their block
    yet: on an open socket every block that arrives is submitted. *)
Definition outstanding_reads (p : pimpl) : Z :=
  Z.of_nat (reads_asked (calls p)) - Z.of_nat (writes_submitted (calls p)).

(** Two states that differ at most in the inbound channel and in calls
    that neither close the handle nor belong to the outbound path. *)
Definition inbound_only (p p0 : pimpl) : Prop :=
  closed_ p0 = closed_ p /\
  writable_in_ p0 = writable_in_ p /\
  readable_out_ p0 = readable_out_ p /\
  write_reqs_ p0 = write_reqs_ p /\
  cached_bytes_ p0 = cached_bytes_ p /\
  cache_size p0 = cache_size p /\
  closes (calls p0) = closes (calls p) /\
  reads_asked (calls p0) = reads_asked (calls p) /\
  writes_submitted (calls p0) = writes_submitted (calls p).

(** Two states with the same books of the outbound path, the second
    closed if the first is. *)
Definition outbound_kept (p p0 : pimpl) : Prop :=
  write_reqs_ p0 = write_reqs_ p /\
  cached_bytes_ p0 = cached_bytes_ p /\
  cache_size p0 = cache_size p /\
  reads_asked (calls p0) = reads_asked (calls p) /\
  writes_submitted (calls p0) = writes_submitted (calls p) /\
  (closed_ p = true -> closed_ p0 = true).

(** The handle has been closed exactly when [closed_] is set. *)
Definition closed_once (p : pimpl) : Prop :=
  closes (calls p) = if closed_ p then 1%nat else 0%nat.

(** The outbound path keeps within its budget: what is in flight is
    counted exactly, stays below [cache_size] plus one block of at most
    [m] bytes, and a read of the outbound channel is outstanding only
    while less than [cache_size] is in flight. *)
Definition within_budget (m : Z) (p : pimpl) : Prop :=
  0 <= m /\ cache_size p + m <= size_modulus /\
  Forall (fun item => 0 <= buf_len_ item) (write_reqs_ p) /\
  cached_bytes_ p = in_flight (write_reqs_ p) /\
  cached_bytes_ p < cache_size p + m /\
  (closed_ p = false ->
   outstanding_reads p <= 1 /\
   (0 < outstanding_reads p -> cached_bytes_ p < cache_size p)).


(** A history in which the surroundings keep their side: a block arrives
    only for a read that is outstanding and has at most [m] bytes, a write
    completes only if it was submitted and has not completed before, and
    nobody but the adapter itself calls [begin_write]. *)
Fixpoint fed (m : Z) (l : list action) (p : pimpl) : bool :=
  match l with
  | [] => true
  | a :: rest =>
      match a with
      | OnBlock _ block =>
          (closed_ p || (0 <? outstanding_reads p)) &&
          (0 <=? block_size block) && (block_size block <=? m)
      | ReadAgain req _ =>
          match find_if req (write_reqs_ p) with
          | Some _ => true
          | None => false
          end
      | BeginWrite => false
      | _ => true
      end &&
      match act a p with
      | Ret _ p1 => fed m rest p1
      | Undefined _ => true
      end
  end.

(** A history in which libuv completes only writes that are in flight:
    every completion finds its request in [write_reqs_]. *)
Fixpoint completions_known (l : list action) (p : pimpl) : bool :=
  match l with
  | [] => true
  | a :: rest =>
      match a with
      | ReadAgain req _ =>
          match find_if req (write_reqs_ p) with
          | Some _ => true
          | None => false
          end
      | _ => true
      end &&
      match act a p with
      | Ret _ p1 => completions_known rest p1
      | Undefined _ => true
      end
  end.

End Adapter.

Arguments Ret {chan A} a p.
Arguments Undefined {chan A} p.

(** The channel of the header behind these members: [write] is [send] with
    the exception turned into the answer false, [should_write] is
    [should_send]; the header's [close] takes no cause and its
    [set_resume_notification] no flag, so both are dropped on the way. *)
#[global] Instance shared_channel_endpoints
  : Endpoints (Channel.shared_channel byte_block) := {
  write block c :=
    match Channel.send block c with
    | (Channel.Returned, c1, _) => (true, c1)
    | (Channel.Thrown _, c1, _) => (false, c1)
    end;
  should_write := Channel.should_send;
  set_resume_notification fn _ c := Channel.set_resume_notification (Some fn) c;
  unset_resume_notification c := Channel.set_resume_notification None c;
  close_with _ c := fst (Channel.close c)
}.

(** A socket as [i_attach_dispatcher], lines 22-51, leaves it after
    [start_read] and [begin_write]: an inbound channel of 6 and an outbound
    channel of 10 blocks, nothing in flight. *)
Definition attached (cache_size : Z)
  : pimpl (chan := Channel.shared_channel byte_block) :=
  {| closed_ := false;
     channel_in := Channel.channel_default 6;
     channel_out := Channel.channel_default 10;
     writable_in_ := true;
     readable_out_ := true;
     keep_alive_ := true;
     write_reqs_ := [];
     cached_bytes_ := 0;
     cache_size := cache_size;
     calls := [uv_read_start; out_read] |}.

End TcpSocket.

(** * The embedding at work *)

Example default_resume_count_values :
  map Channel.default_resume_count [1; 2; 3; 4; 6; 10] = [1; 2; 2; 3; 4; 7].
Proof. reflexivity. Qed.

(** A waiter parked by [receive] is served by the next [send] without the
    value passing through the queue. *)
Example parked_waiter_is_served :
  let c := fst (Channel.run [Channel.Receive; Channel.Send 5%nat]
                  (Channel.channel 2 2)) in
  Channel.defers c = [Channel.Value 5%nat] /\
  Channel.queue_ c = [] /\
  Channel.waiters_ c = [] /\
  Channel.paused_ c = false.
Proof. cbn. auto. Qed.

(** [close] rejects the waiters that are parked and releases the scopes. *)
Example close_rejects_waiters :
  let c := fst (Channel.run [Channel.AddScope 1%nat; Channel.Receive;
                             Channel.Receive; Channel.Close]
                  (@Channel.channel nat 2 2)) in
  Channel.defers c =
    [Channel.Failure Channel.channel_closed_exception;
     Channel.Failure Channel.channel_closed_exception] /\
  Channel.waiters_ c = [] /\
  Channel.scopes_ c = [].
Proof. cbn. auto. Qed.

(** A block of 100 bytes goes out and its write completes: the entry is
    gone and [cached_bytes_] is back at 0. *)
Example write_completes :
  let block := TcpSocket.mk_byte_block 100 (Some 1%nat) in
  match
    TcpSocket.bind (TcpSocket.on_block 3%nat block)
      (fun _ => TcpSocket.read_again false 3%nat 0) (TcpSocket.attached 65536)
  with
  | TcpSocket.Ret _ p =>
      TcpSocket.write_reqs_ p = [] /\ TcpSocket.cached_bytes_ p = 0 /\
      TcpSocket.closed_ p = false
  | TcpSocket.Undefined _ => False
  end.
Proof. vm_compute. auto. Qed.

(** * Properties of the channel *)

Section ChannelProperties.

Import Channel.

Context {V : Type}.

Implicit Types (c : shared_channel V) (t v : V) (ops : list (op V)).

(** ** The operations, case by case *)

Lemma send_closed t c :
  closed_ c = true ->
  send t c = (Thrown channel_closed_exception, c, []).
Proof. intros Hc. unfold send. now rewrite Hc. Qed.

Lemma send_buffers t c :
  closed_ c = false -> waiters_ c = [] ->
  send t c =
    (Returned,
     with_queue V (queue_ c ++ [t])
       (if buffer_count_ c <=? size (queue_ c)
        then with_paused V true c else c),
     if buffer_count_ c <=? size (queue_ c) then [PausedStored] else []).
Proof.
  intros Hc Hw. unfold send. rewrite Hc, Hw.
  now destruct (buffer_count_ c <=? size (queue_ c)).
Qed.

Lemma send_hands_over t c waiter rest :
  closed_ c = false -> waiters_ c = waiter :: rest ->
  send t c =
    (Returned,
     with_defers V (<[waiter := Value t]> (defers c)) (with_waiters V rest c),
     []).
Proof. intros Hc Hw. unfold send. now rewrite Hc, Hw. Qed.

Lemma resume_paused c :
  paused_ (fst (resume c)) = false.
Proof. unfold resume. destruct (paused_ c) eqn:E; simpl; auto. Qed.

Lemma resume_queue c : queue_ (fst (resume c)) = queue_ c.
Proof. unfold resume. now destruct (paused_ c). Qed.

Lemma resume_waiters c : waiters_ (fst (resume c)) = waiters_ c.
Proof. unfold resume. now destruct (paused_ c). Qed.

Lemma resume_closed c : closed_ (fst (resume c)) = closed_ c.
Proof. unfold resume. now destruct (paused_ c). Qed.

Lemma resume_buffer_count c :
  buffer_count_ (fst (resume c)) = buffer_count_ c.
Proof. unfold resume. now destruct (paused_ c). Qed.

(** ** One direction at a time *)

Lemma one_sided_step o c : one_sided c -> one_sided (fst (step o c)).
Proof.
  unfold one_sided. intros Hinv.
  destruct o as [t| | |fn|s|]; simpl.
  - unfold send. destruct (closed_ c); simpl; [assumption|].
    destruct (waiters_ c) as [|w rest] eqn:Hw; simpl.
    + right. now destruct (buffer_count_ c <=? size (queue_ c)).
    + left. destruct Hinv as [Hq|Hq]; [assumption|discriminate].
  - unfold receive. destruct (queue_ c) as [|t rest] eqn:Hq; simpl.
    + destruct (closed_ c); simpl; [now left|].
      match goal with
      | |- context [resume ?x] =>
          pose proof (resume_queue x) as Hr; destruct (resume x) as [c3 evs]
      end.
      simpl in *. left. now rewrite Hr.
    + right. destruct Hinv as [Hi|Hi]; [discriminate|].
      now destruct (size rest <? resume_count_ c).
  - now right.
  - assumption.
  - unfold add_scope_until_closed. now destruct (closed_ c).
  - unfold run_task. destruct (default_queue_ c); simpl; [assumption|].
    rewrite resume_queue, resume_waiters. assumption.
Qed.

Lemma run_cons o ops c :
  run (o :: ops) c =
    (fst (run ops (fst (step o c))),
     snd (step o c) ++ snd (run ops (fst (step o c)))).
Proof.
  simpl. destruct (step o c) as [c1 evs]. simpl.
  now destruct (run ops c1).
Qed.

Lemma run_app ops ops' c :
  run (ops ++ ops') c =
    (fst (run ops' (fst (run ops c))),
     snd (run ops c) ++ snd (run ops' (fst (run ops c)))).
Proof.
  revert c. induction ops as [|o ops IH]; intros c.
  - simpl. now destruct (run ops' c).
  - rewrite <- app_comm_cons, !run_cons, IH. simpl.
    now rewrite app_assoc.
Qed.

Lemma one_sided_run ops c : one_sided c -> one_sided (fst (run ops c)).
Proof.
  revert c. induction ops as [|o ops IH]; intros c Hinv; [assumption|].
  rewrite run_cons. simpl. apply IH. now apply one_sided_step.
Qed.

(** C4.  Whatever history of [send], [receive], [close] (and of the other
    calls the channel offers) a channel has been through since it was
    constructed, its queue of buffered values is empty or its list of
    waiters is empty: the two are never non-empty together. *)
Theorem queue_or_waiters_empty (buffer_count resume_count : Z) ops :
  let c := fst (run ops (channel buffer_count resume_count)) in
  queue_ c = [] \/ waiters_ c = [].
Proof.
  simpl. apply (one_sided_run ops). now left.
Qed.

(** C10.  On a closed channel [send] throws [channel_closed_exception]
    before it changes anything: the channel it leaves is the channel it
    found (queue, waiters, paused flag, scopes and all the rest), and
    nothing outside is touched. *)
Theorem send_on_closed_channel_is_atomic t c (Hclosed : closed_ c = true) :
  send t c = (Thrown channel_closed_exception, c, []) /\
  queue_ (snd (fst (send t c))) = queue_ c /\
  waiters_ (snd (fst (send t c))) = waiters_ c /\
  paused_ (snd (fst (send t c))) = paused_ c /\
  scopes_ (snd (fst (send t c))) = scopes_ c.
Proof.
  rewrite (send_closed t c Hclosed). simpl. repeat split.
Qed.

End ChannelProperties.

Lemma send_on_closed_channel_is_atomic_witness :
  let c :=
    fst (Channel.run [Channel.Send 5%nat; Channel.AddScope 1%nat; Channel.Close]
           (Channel.channel 4 3)) in
  Channel.closed_ c = true /\
  Channel.queue_ c = [5%nat] /\
  Channel.send 9%nat c =
    (Channel.Thrown Channel.channel_closed_exception, c, []).
Proof.
  split; [reflexivity|]. split; [reflexivity|].
  apply (send_on_closed_channel_is_atomic 9%nat). reflexivity.
Defined.

Section ChannelScenarios.

Import Channel.

Context {V : Type}.

Implicit Types (c : shared_channel V) (t v : V) (ops : list (op V)).

Lemma size_app_one {A : Type} (l : list A) (x : A) :
  size (l ++ [x]) = size l + 1.
Proof. unfold size. rewrite length_app. simpl. lia. Qed.

Lemma sends_from (vs : list V) c :
  closed_ c = false -> waiters_ c = [] ->
  paused_ c = (buffer_count_ c <? size (queue_ c)) ->
  let c' := fst (run (map Send vs) c) in
  queue_ c' = queue_ c ++ vs /\
  paused_ c' = (buffer_count_ c <? size (queue_ c')) /\
  closed_ c' = false.
Proof.
  revert c. induction vs as [|v vs IH]; intros c Hc Hw Hp.
  - simpl. rewrite app_nil_r. auto.
  - cbn [map]. rewrite run_cons. cbn [fst step].
    rewrite (send_buffers v c Hc Hw). cbn [fst snd].
    set (c1 := with_queue V _ _).
    assert (Hq1 : queue_ c1 = queue_ c ++ [v]).
    { subst c1. now destruct (buffer_count_ c <=? size (queue_ c)). }
    assert (Hb1 : buffer_count_ c1 = buffer_count_ c).
    { subst c1. now destruct (buffer_count_ c <=? size (queue_ c)). }
    assert (Hc1 : closed_ c1 = false).
    { subst c1. now destruct (buffer_count_ c <=? size (queue_ c)). }
    assert (Hw1 : waiters_ c1 = []).
    { subst c1. now destruct (buffer_count_ c <=? size (queue_ c)). }
    assert (Hp1 : paused_ c1 = (buffer_count_ c1 <? size (queue_ c1))).
    { rewrite Hb1, Hq1, size_app_one. subst c1.
      destruct (Z.leb_spec (buffer_count_ c) (size (queue_ c))); simpl.
      - symmetry. apply Z.ltb_lt. lia.
      - rewrite Hp.
        transitivity false;
          [apply Z.ltb_ge; lia|symmetry; apply Z.ltb_ge; lia]. }
    destruct (IH c1 Hc1 Hw1 Hp1) as (Hq & Hp' & Hc').
    rewrite Hq1, <- app_assoc in Hq. rewrite Hb1 in Hp'. simpl in Hq. auto.
Qed.

(** C2, as the code has it.  On an open channel with no waiter, [send]
    pushes the value and sets [paused_] when the queue held at least
    [buffer_count_] values before the push, that is when it holds more than
    [buffer_count_] after it; otherwise [paused_] keeps its value.  So a
    fresh channel that is sent the values [vs] buffers them all, and is
    paused, with [should_send] false, exactly when there are more than
    [buffer_count] of them: with [buffer_count = 4] that is after the fifth
    value, not the fourth. *)
Theorem send_pauses_beyond_buffer_count v c
    (Hopen : closed_ c = false) (Hnone : waiters_ c = [])
    (buffer_count resume_count : Z) (Hcount : 0 <= buffer_count)
    (vs : list V) :
  (let c' := snd (fst (send v c)) in
   fst (fst (send v c)) = Returned /\
   queue_ c' = queue_ c ++ [v] /\
   waiters_ c' = [] /\
   paused_ c' = paused_ c || (buffer_count_ c <? size (queue_ c'))) /\
  (let c' := fst (run (map Send vs) (channel buffer_count resume_count)) in
   queue_ c' = vs /\
   paused_ c' = (buffer_count <? size vs) /\
   should_send c' = negb (buffer_count <? size vs)).
Proof.
  split.
  - rewrite (send_buffers v c Hopen Hnone). cbn [fst snd].
    destruct (Z.leb_spec (buffer_count_ c) (size (queue_ c))) as [Hle|Hlt];
      cbn [queue_ waiters_ paused_ with_queue with_paused buffer_count_];
      rewrite size_app_one; repeat split; try assumption.
    + replace (buffer_count_ c <? size (queue_ c) + 1) with true.
      * now rewrite orb_true_r.
      * symmetry. apply Z.ltb_lt. lia.
    + replace (buffer_count_ c <? size (queue_ c) + 1) with false.
      * now rewrite orb_false_r.
      * symmetry. apply Z.ltb_ge. lia.
  - assert (Hp : paused_ (@channel V buffer_count resume_count) =
                 (buffer_count_ (@channel V buffer_count resume_count) <?
                  size (queue_ (@channel V buffer_count resume_count)))).
    { cbn. symmetry. apply Z.ltb_ge. assumption. }
    destruct (sends_from vs (channel buffer_count resume_count)
                eq_refl eq_refl Hp) as (Hq & Hp' & Hc').
    cbn [queue_ channel make_shared_channel app buffer_count_] in Hq, Hp'.
    cbv zeta. rewrite Hq in Hp'. repeat split; try assumption.
    unfold should_send. now rewrite Hp', Hc', andb_true_r.
Qed.

Lemma lookup_new_slot (d : list (slot V)) (s : slot V) :
  (d ++ [s]) !! length d = Some s.
Proof. now apply list_lookup_middle. Qed.

Lemma receive_closed_empty c :
  closed_ c = true -> queue_ c = [] ->
  promise_of (receive c) = Some (Failure channel_closed_exception) /\
  closed_ (snd (fst (receive c))) = true /\
  queue_ (snd (fst (receive c))) = [] /\
  snd (receive c) = [].
Proof.
  intros Hc Hq. unfold promise_of, receive. rewrite Hq, Hc. cbn.
  split; [apply lookup_new_slot|]. auto.
Qed.

Lemma receive_buffered c t rest :
  queue_ c = t :: rest ->
  promise_of (receive c) = Some (Value t) /\
  closed_ (snd (fst (receive c))) = closed_ c /\
  queue_ (snd (fst (receive c))) = rest.
Proof.
  intros Hq. unfold promise_of, receive. rewrite Hq. cbn.
  destruct (size rest <? resume_count_ c); cbn; repeat split;
    unfold set_value; apply list_lookup_insert_eq;
    rewrite length_app; simpl; lia.
Qed.

Lemma receive_n_closed (k : nat) c :
  closed_ c = true ->
  fst (receive_n (length (queue_ c) + k) c) =
    map (fun v => Some (Value v)) (queue_ c) ++
    repeat (Some (Failure channel_closed_exception)) k.
Proof.
  remember (queue_ c) as q eqn:Hq. revert c Hq.
  induction q as [|t rest IH]; intros c Hq Hc.
  - simpl. revert c Hq Hc.
    induction k as [|k IHk]; intros c Hq Hc; [reflexivity|].
    destruct (receive_closed_empty c Hc (eq_sym Hq)) as (Hp & Hc' & Hq' & _).
    cbn [receive_n repeat].
    specialize (IHk (snd (fst (receive c))) (eq_sym Hq') Hc').
    destruct (receive_n k (snd (fst (receive c)))) as [ps c'].
    cbn [fst] in *. now rewrite Hp, IHk.
  - destruct (receive_buffered c t rest (eq_sym Hq)) as (Hp & Hc' & Hq').
    cbn [length Nat.add receive_n map app].
    rewrite Hc in Hc'.
    specialize (IH (snd (fst (receive c))) (eq_sym Hq') Hc').
    destruct (receive_n (length rest + k) (snd (fst (receive c)))) as [ps c'].
    cbn [fst] in *. now rewrite Hp, IH.
Qed.

(** C3, as the code has it.  Once [close] has been called, [receive] first
    hands out the values that were still buffered, in the order they were
    sent, each as a fulfilled promise; every [receive] after the queue has
    run empty returns a promise rejected with [channel_closed_exception].
    ([close] of this header takes no cause, so there is none to reject
    with.) *)
Theorem receive_after_close_drains_then_rejects c (k : nat) :
  let closed := fst (close c) in
  fst (receive_n (length (queue_ c) + k) closed) =
    map (fun v => Some (Value v)) (queue_ c) ++
    repeat (Some (Failure channel_closed_exception)) k.
Proof.
  cbv zeta. apply (receive_n_closed k (fst (close c))). reflexivity.
Qed.

End ChannelScenarios.

Lemma send_pauses_beyond_buffer_count_witness :
  let c := fst (Channel.run (map Channel.Send [1; 2; 3; 4; 5]%nat)
                  (Channel.channel 4 3)) in
  Channel.queue_ c = [1; 2; 3; 4; 5]%nat /\
  Channel.paused_ c = true /\
  Channel.should_send c = false.
Proof.
  exact (proj2 (send_pauses_beyond_buffer_count 1%nat (Channel.channel 4 3)
                  eq_refl eq_refl 4 3 ltac:(lia) [1; 2; 3; 4; 5]%nat)).
Defined.

(** C2 fails on the code: after four values on a fresh channel with
    [buffer_count = 4] and [resume_count = 3] the queue has reached
    [buffer_count_], yet [paused_] is not set and [should_send] is not
    false. *)
Lemma four_sends_do_not_pause :
  let c := fst (Channel.run (map Channel.Send [1; 2; 3; 4]%nat)
                  (Channel.channel 4 3)) in
  Channel.buffer_count_ c <= size (Channel.queue_ c) /\
  ~ (Channel.paused_ c = true /\ Channel.should_send c = false).
Proof.
  cbn. split; [reflexivity|]. intros [H _]. discriminate H.
Qed.

(** C3 fails on the code: a value sent before [close] is still handed out
    by the [receive] that follows the [close]; that promise is fulfilled,
    not rejected. *)
Lemma receive_after_close_can_succeed :
  let c := fst (Channel.run [Channel.Send 7%nat; Channel.Close]
                  (Channel.channel 4 3)) in
  Channel.closed_ c = true /\
  Channel.promise_of (Channel.receive c) = Some (Channel.Value 7%nat) /\
  Channel.promise_of (Channel.receive c) <>
    Some (Channel.Failure Channel.channel_closed_exception).
Proof.
  cbn. repeat split. discriminate.
Qed.

Section ChannelBounds.

Import Channel.

Context {V : Type}.

Implicit Types (c : shared_channel V) (t v : V) (ops : list (op V)).




(** ** How far the queue can grow *)

Lemma step_buffer_count o c :
  buffer_count_ (fst (step o c)) = buffer_count_ c.
Proof.
  destruct o as [t| | |fn|s|]; cbn [step].
  - unfold send. destruct (closed_ c); [reflexivity|].
    destruct (waiters_ c); cbn; [|reflexivity].
    now destruct (buffer_count_ c <=? size (queue_ c)).
  - unfold receive. destruct (queue_ c) as [|t rest]; cbn.
    + destruct (closed_ c); cbn; [reflexivity|].
      match goal with
      | |- context [resume ?x] =>
          pose proof (resume_buffer_count x) as Hr; destruct (resume x)
      end.
      cbn in *. now rewrite Hr.
    + now destruct (size rest <? resume_count_ c).
  - reflexivity.
  - reflexivity.
  - unfold add_scope_until_closed. now destruct (closed_ c).
  - unfold run_task. destruct (default_queue_ c); [reflexivity|].
    now rewrite resume_buffer_count.
Qed.

Lemma step_growth o c (N : Z) :
  heeds_pause [o] c = true ->
  0 <= N -> buffer_count_ c <= N ->
  size (queue_ c) <= N + b2z (paused_ c) ->
  size (queue_ (fst (step o c))) <=
    N + Z.of_nat (tasks_run [o] c) + b2z (paused_ (fst (step o c))).
Proof.
  intros Hheed HN HB Hsize.
  destruct o as [t| | |fn|s|]; cbn [step heeds_pause tasks_run] in *.
  - rewrite !andb_true_r in Hheed. unfold should_send in Hheed.
    apply andb_true_iff in Hheed as [Hp Hc].
    apply negb_true_iff in Hp, Hc. rewrite Hp in Hsize. cbn in Hsize.
    destruct (waiters_ c) as [|w rest] eqn:Hw.
    + rewrite (send_buffers t c Hc Hw). cbn [fst snd].
      destruct (Z.leb_spec (buffer_count_ c) (size (queue_ c))); cbn;
        rewrite size_app_one, ?Hp; cbn; lia.
    + rewrite (send_hands_over t c w rest Hc Hw). cbn. rewrite Hp. cbn. lia.
  - unfold receive. destruct (queue_ c) as [|t rest] eqn:Hq; cbn.
    + destruct (closed_ c); cbn; rewrite ?Hq; [cbn in *; lia|].
      match goal with
      | |- context [resume ?x] =>
          pose proof (resume_queue x) as Hr; pose proof (resume_paused x) as Hp;
          destruct (resume x) as [c3 evs]
      end.
      cbn in *. rewrite Hr, Hp, Hq. unfold size. cbn. lia.
    + assert (size rest <= size (t :: rest)) by (unfold size; cbn; lia).
      destruct (size rest <? resume_count_ c); cbn; lia.
  - cbn. lia.
  - cbn. lia.
  - unfold add_scope_until_closed. destruct (closed_ c); cbn; lia.
  - unfold run_task. destruct (default_queue_ c) as [|n]; cbn [fst].
    + cbn. lia.
    + rewrite resume_queue, resume_paused. cbn [queue_ with_default_queue].
      destruct (paused_ c); cbn in *; lia.
Qed.

Lemma run_growth ops c (N : Z) :
  heeds_pause ops c = true ->
  0 <= N -> buffer_count_ c <= N ->
  size (queue_ c) <= N + b2z (paused_ c) ->
  size (queue_ (fst (run ops c))) <=
    N + Z.of_nat (tasks_run ops c) + b2z (paused_ (fst (run ops c))).
Proof.
  revert c N. induction ops as [|o ops IH]; intros c N Hheed HN HB Hsize.
  - cbn. lia.
  - rewrite run_cons. cbn [fst].
    assert (Ho : heeds_pause [o] c = true).
    { cbn [heeds_pause] in *. apply andb_true_iff in Hheed as [Hh _].
      now rewrite Hh. }
    assert (Hrest : heeds_pause ops (fst (step o c)) = true).
    { cbn [heeds_pause] in Hheed. now apply andb_true_iff in Hheed as [_ Hh]. }
    pose proof (step_growth o c N Ho HN HB Hsize) as Hstep.
    assert (Htasks : tasks_run (o :: ops) c =
                     (tasks_run [o] c + tasks_run ops (fst (step o c)))%nat).
    { cbn [tasks_run]. lia. }
    rewrite Htasks, Nat2Z.inj_add.
    specialize (IH (fst (step o c)) (N + Z.of_nat (tasks_run [o] c))
                  Hrest ltac:(lia)).
    rewrite step_buffer_count in IH. specialize (IH ltac:(lia) Hstep). lia.
Qed.

(** C1, as the code has it.  [send] never turns a value away, so the
    channel alone puts no bound on its queue.  The bound is the producer's:
    when every [send] of a history is made while [should_send] is true, the
    queue of a channel of capacity [buffer_count] holds at most
    [buffer_count] values while the channel is not paused and one more
    while it is, plus one for each [resume] closure of [default_queue_]
    that the history has run. *)
Theorem queue_bounded_when_producer_heeds_pause
    (buffer_count resume_count : Z) ops
    (Hcount : 0 <= buffer_count)
    (Hheeds : heeds_pause ops (channel buffer_count resume_count) = true) :
  let start := channel buffer_count resume_count in
  let c := fst (run ops start) in
  size (queue_ c) <=
    buffer_count + Z.of_nat (tasks_run ops start) + b2z (paused_ c) /\
  size (queue_ c) <= buffer_count + 1 + Z.of_nat (tasks_run ops start).
Proof.
  cbv zeta.
  pose proof (run_growth ops (channel buffer_count resume_count) buffer_count
                Hheeds Hcount) as Hrun.
  cbn [buffer_count_ channel make_shared_channel queue_ paused_] in Hrun.
  specialize (Hrun ltac:(lia) ltac:(unfold size; cbn; lia)).
  split; [exact Hrun|].
  destruct (paused_ (fst (run ops (channel buffer_count resume_count))));
    cbn in Hrun; lia.
Qed.

End ChannelBounds.



Lemma queue_bounded_when_producer_heeds_pause_witness :
  let ops := [Channel.Send 1; Channel.Send 2; Channel.Send 3; Channel.Receive;
              Channel.Receive; Channel.RunTask; Channel.Send 4]%nat in
  let start := Channel.channel 2 2 in
  Channel.heeds_pause ops start = true /\
  size (Channel.queue_ (fst (Channel.run ops start))) <=
    2 + 1 + Z.of_nat (Channel.tasks_run ops start).
Proof.
  split; [reflexivity|].
  apply (queue_bounded_when_producer_heeds_pause 2 2); [lia|reflexivity].
Defined.

(** C1 fails on the code: three values sent to a fresh channel of capacity
    1 are all buffered, two more than the capacity. *)
Lemma queue_exceeds_buffer_count :
  let c := fst (Channel.run (map Channel.Send [1; 2; 3]%nat)
                  (Channel.channel 1 1)) in
  size (Channel.queue_ c) = 3 /\
  ~ (size (Channel.queue_ c) <= Channel.buffer_count_ c + 1).
Proof.
  cbn. split; [reflexivity|]. intros H. apply H. reflexivity.
Qed.

Section ChannelResume.

Import Channel.

Context {V : Type}.

Implicit Types (c : shared_channel V) (ops : list (op V)) (evs : list event).

Lemma replay_app (paused : bool) evs evs' :
  replay paused (evs ++ evs') =
    match replay paused evs with
    | Some p => replay p evs'
    | None => None
    end.
Proof.
  revert paused. induction evs as [|e evs IH]; intros paused; [reflexivity|].
  destruct e as [| |o fn]; cbn; auto.
  destruct paused; auto.
Qed.

Lemma replay_reaches_true (paused : bool) evs :
  replay paused evs = Some true -> paused = true \/ In PausedStored evs.
Proof.
  revert paused. induction evs as [|e evs IH]; intros paused Hr; cbn in Hr.
  - left. congruence.
  - destruct e as [| |o fn].
    + right. now left.
    + destruct paused; [|discriminate].
      destruct (IH false Hr) as [Hf|Hin]; [discriminate|]. right. now right.
    + destruct (IH paused Hr) as [Hp|Hin]; [now left|]. right. now right.
Qed.

Lemma replay_between_transitions (paused : bool) evs1 evs2 evs3 :
  replay paused (evs1 ++ PausedCleared :: evs2 ++ PausedCleared :: evs3)
    <> None ->
  In PausedStored evs2.
Proof.
  rewrite replay_app. destruct (replay paused evs1) as [p1|]; [|congruence].
  cbn. destruct p1; [|congruence].
  rewrite replay_app.
  destruct (replay false evs2) as [p2|] eqn:H2; [|congruence].
  cbn. destruct p2; [|congruence]. intros _.
  destruct (replay_reaches_true false evs2 H2) as [Hf|Hin];
    [discriminate|assumption].
Qed.

Lemma resume_replay c :
  replay (paused_ c) (snd (resume c)) = Some (paused_ (fst (resume c))).
Proof.
  unfold resume. destruct (paused_ c) eqn:Hp; cbn; [|now rewrite Hp].
  now destruct (resume_notification_ c).
Qed.

Lemma step_replay o c :
  replay (paused_ c) (snd (step o c)) = Some (paused_ (fst (step o c))).
Proof.
  destruct o as [t| | |fn|s|]; cbn [step].
  - unfold send. destruct (closed_ c); [reflexivity|].
    destruct (waiters_ c); [|reflexivity].
    now destruct (buffer_count_ c <=? size (queue_ c)).
  - unfold receive. destruct (queue_ c) as [|t rest].
    + destruct (closed_ c); [reflexivity|]. cbn.
      match goal with
      | |- context [resume ?x] =>
          pose proof (resume_replay x) as Hr; destruct (resume x)
      end.
      exact Hr.
    + cbn. now destruct (size rest <? resume_count_ c).
  - cbn. now destruct (resume_notification_ c).
  - reflexivity.
  - unfold add_scope_until_closed. now destruct (closed_ c).
  - unfold run_task. destruct (default_queue_ c) as [|n]; [reflexivity|].
    apply (resume_replay (with_default_queue V n c)).
Qed.

Lemma run_replay ops c :
  replay (paused_ c) (snd (run ops c)) = Some (paused_ (fst (run ops c))).
Proof.
  revert c. induction ops as [|o ops IH]; intros c; [reflexivity|].
  rewrite run_cons. cbn [fst snd]. rewrite replay_app, step_replay. apply IH.
Qed.

Lemma announced_weaken (cleared : bool) evs :
  announced false evs = true -> announced cleared evs = true.
Proof.
  destruct evs as [|[| |[|] fn] evs]; cbn; auto. discriminate.
Qed.

Lemma announced_app (cleared : bool) evs evs' :
  announced cleared evs = true -> announced false evs' = true ->
  announced cleared (evs ++ evs') = true.
Proof.
  revert cleared. induction evs as [|e evs IH]; intros cleared H1 H2.
  - now apply announced_weaken.
  - destruct e as [| |[|] fn]; cbn in *; auto.
    apply andb_true_iff in H1 as [Hc Hrest]. rewrite Hc. cbn. auto.
Qed.

Lemma resume_announced c : announced false (snd (resume c)) = true.
Proof.
  unfold resume. destruct (paused_ c); [|reflexivity].
  now destruct (resume_notification_ c).
Qed.

Lemma step_announced o c : announced false (snd (step o c)) = true.
Proof.
  destruct o as [t| | |fn|s|]; cbn [step].
  - unfold send. destruct (closed_ c); [reflexivity|].
    destruct (waiters_ c); [|reflexivity].
    now destruct (buffer_count_ c <=? size (queue_ c)).
  - unfold receive. destruct (queue_ c) as [|t rest].
    + destruct (closed_ c); [reflexivity|]. cbn.
      match goal with
      | |- context [resume ?x] =>
          pose proof (resume_announced x) as Hr; destruct (resume x)
      end.
      exact Hr.
    + cbn. now destruct (size rest <? resume_count_ c).
  - cbn. now destruct (resume_notification_ c).
  - reflexivity.
  - reflexivity.
  - unfold run_task. destruct (default_queue_ c) as [|n]; [reflexivity|].
    apply resume_announced.
Qed.

Lemma run_announced ops c : announced false (snd (run ops c)) = true.
Proof.
  revert c. induction ops as [|o ops IH]; intros c; [reflexivity|].
  rewrite run_cons. cbn [snd].
  apply announced_app; [apply step_announced|apply IH].
Qed.

Lemma announced_before_invocation (cleared : bool) evs1 fn evs2 :
  announced cleared (evs1 ++ Invoked ByResume fn :: evs2) = true ->
  (evs1 = [] /\ cleared = true) \/ exists evs0, evs1 = evs0 ++ [PausedCleared].
Proof.
  revert cleared. induction evs1 as [|e evs1 IH]; intros cleared Ha.
  - left. cbn in Ha. apply andb_true_iff in Ha as [Hc _]. auto.
  - right.
    assert (Hnext : exists b,
               announced b (evs1 ++ Invoked ByResume fn :: evs2) = true /\
               (b = true -> e = PausedCleared)).
    { destruct e as [| |[|] g]; cbn in Ha.
      - exists false. split; [assumption|discriminate].
      - exists true. split; [assumption|reflexivity].
      - apply andb_true_iff in Ha as [_ Ha]. exists false.
        split; [assumption|discriminate].
      - exists false. split; [assumption|discriminate]. }
    destruct Hnext as (b & Hb & He).
    destruct (IH b Hb) as [[Hnil Htrue]|[evs0 Hevs0]].
    + exists []. rewrite Hnil, (He Htrue). reflexivity.
    + exists (e :: evs0). rewrite Hevs0. reflexivity.
Qed.

Lemma announced_count (cleared : bool) evs :
  announced cleared evs = true ->
  (resume_invocations evs <= transitions evs + (if cleared then 1 else 0))%nat.
Proof.
  revert cleared. induction evs as [|e evs IH]; intros cleared Ha.
  - cbn. lia.
  - destruct e as [| |[|] fn]; cbn in *.
    + specialize (IH false Ha). cbn in IH. lia.
    + specialize (IH true Ha). cbn in IH. lia.
    + apply andb_true_iff in Ha as [Hc Ha]. subst cleared.
      specialize (IH false Ha). cbn in IH. lia.
    + specialize (IH false Ha). cbn in IH. lia.
Qed.

(** C5.  In everything a channel does over any history, from any state:
    between two transitions of [paused_] from true to false there is a
    store of true to [paused_]; and each callback invocation that [resume]
    makes comes right after such a transition, one at most for each, so
    [resume] never fires the callback twice for one transition. *)
Theorem resume_fires_once_per_transition c ops :
  let evs := snd (run ops c) in
  (forall evs1 evs2 evs3,
     evs = evs1 ++ PausedCleared :: evs2 ++ PausedCleared :: evs3 ->
     In PausedStored evs2) /\
  (forall evs1 fn evs2,
     evs = evs1 ++ Invoked ByResume fn :: evs2 ->
     exists evs0, evs1 = evs0 ++ [PausedCleared]) /\
  (resume_invocations evs <= transitions evs)%nat.
Proof.
  cbv zeta. split; [|split].
  - intros evs1 evs2 evs3 Hevs.
    apply (replay_between_transitions (paused_ c) evs1 evs2 evs3).
    rewrite <- Hevs, run_replay. discriminate.
  - intros evs1 fn evs2 Hevs.
    pose proof (run_announced ops c) as Ha. rewrite Hevs in Ha.
    destruct (announced_before_invocation false evs1 fn evs2 Ha)
      as [[_ Hf]|Hex]; [discriminate|assumption].
  - pose proof (announced_count false _ (run_announced ops c)) as Hc.
    cbn in Hc. lia.
Qed.

(** ** Closing again *)

Lemma close_again c : fst (close (fst (close c))) = fst (close c).
Proof. reflexivity. Qed.

Lemma close_events c :
  snd (close c) = invoke ByClose (resume_notification_ c).
Proof. reflexivity. Qed.

Lemma close_n_closed (k : nat) c :
  close_n (S k) c =
    (fst (close c),
     concat (repeat (invoke ByClose (resume_notification_ c)) (S k))).
Proof.
  revert c. induction k as [|k IH]; intros c.
  - cbn. now rewrite app_nil_r.
  - change (close_n (S (S k)) c) with
      (let '(c1, evs) := close c in
       let '(c2, evs') := close_n (S k) c1 in (c2, evs ++ evs')).
    destruct (close c) as [c1 evs] eqn:Hclose.
    assert (Hc1 : c1 = fst (close c)) by now rewrite Hclose.
    assert (Hevs : evs = invoke ByClose (resume_notification_ c))
      by now rewrite <- close_events, Hclose.
    rewrite IH, Hc1, close_again. cbn [fst]. subst evs. reflexivity.
Qed.

End ChannelResume.

Lemma resume_fires_once_per_transition_witness :
  let ops := [Channel.SetResumeNotification (Some 7%nat);
              Channel.Send 1; Channel.Send 2; Channel.Receive; Channel.Receive;
              Channel.RunTask; Channel.Send 3; Channel.Send 4; Channel.Receive;
              Channel.Receive; Channel.Receive]%nat in
  snd (Channel.run ops (Channel.channel 1 1)) =
    [Channel.PausedStored; Channel.PausedCleared;
     Channel.Invoked Channel.ByResume 7%nat;
     Channel.PausedStored; Channel.PausedCleared;
     Channel.Invoked Channel.ByResume 7%nat] /\
  In Channel.PausedStored
    [Channel.Invoked Channel.ByResume 7%nat; Channel.PausedStored].
Proof.
  split; [reflexivity|].
  refine (proj1 (resume_fires_once_per_transition (Channel.channel 1 1)
            [Channel.SetResumeNotification (Some 7%nat);
             Channel.Send 1; Channel.Send 2; Channel.Receive; Channel.Receive;
             Channel.RunTask; Channel.Send 3; Channel.Send 4; Channel.Receive;
             Channel.Receive; Channel.Receive]%nat)
            [Channel.PausedStored] _
            [Channel.Invoked Channel.ByResume 7%nat] _).
  reflexivity.
Defined.

(** * Properties of the socket adapter *)

Section SocketProperties.

Import TcpSocket.

Context {chan : Type} `{Endpoints chan}.

Variable UV_EOF : Z.
Variable uv_error_to_errno : Z -> Z.
Variable reschedule_default : bool.

Implicit Types (p : pimpl (chan := chan)) (status : option io_exception).

Lemma stop_read_plain p :
  stop_read false p = Ret tt (with_calls (calls p ++ [uv_read_stop]) p).
Proof. reflexivity. Qed.

Lemma stop_read_rescheduling p :
  writable_in_ p = true ->
  stop_read true p =
    Ret tt
      (with_channel_in
         (set_resume_notification start_read_again true (channel_in p))
         (with_calls (calls p ++ [uv_read_stop]) p)).
Proof.
  intros Hw. unfold stop_read, bind, emit, modify, gets. cbn. now rewrite Hw.
Qed.

Lemma i_close_when_closed status p :
  closed_ p = true -> i_close reschedule_default status p = Ret tt p.
Proof. intros Hc. unfold i_close, bind, gets. now rewrite Hc. Qed.

Lemma i_close_closes status p p1 :
  i_close reschedule_default status p = Ret tt p1 -> closed_ p1 = true.
Proof.
  unfold i_close, stop_read, i_close_handle, emit, bind, gets, modify, ret,
    undefined.
  destruct (closed_ p) eqn:Hc; cbn; [intros [= <-]; assumption|].
  destruct (writable_in_ p) eqn:Hw, (readable_out_ p), reschedule_default;
    cbn; rewrite ?Hw; cbn;
    first [discriminate | intros [= <-]; reflexivity].
Qed.

(** The second of two calls of [i_close] finds [closed_] set and
    returns. *)
Lemma i_close_again status status' p :
  bind (i_close reschedule_default status)
    (fun _ => i_close reschedule_default status') p =
  i_close reschedule_default status p.
Proof.
  unfold bind at 1.
  destruct (i_close reschedule_default status p) as [[] p1|p1] eqn:Hfirst;
    [|reflexivity].
  apply i_close_when_closed. exact (i_close_closes status p p1 Hfirst).
Qed.

(** C6, as the code has it.  Closing a channel again changes nothing in
    the channel: after any [k >= 1] calls of [close] its state is the state
    after the first.  But each call invokes the [resume_notification_] that
    is installed, so [k] calls invoke it [k] times.  [i_close] of the socket
    is idempotent altogether: the second call leaves the state and the
    calls made as the first left them. *)
Theorem close_again_keeps_state_and_notifies
    {V : Type} (c : Channel.shared_channel V) (k : nat) status status' p :
  fst (Channel.close_n (S k) c) = fst (Channel.close c) /\
  snd (Channel.close_n (S k) c) =
    concat (repeat (Channel.invoke Channel.ByClose
                      (Channel.resume_notification_ c)) (S k)) /\
  bind (i_close reschedule_default status)
    (fun _ => i_close reschedule_default status') p =
  i_close reschedule_default status p.
Proof.
  rewrite close_n_closed. cbn [fst snd].
  split; [reflexivity|]. split; [reflexivity|]. apply i_close_again.
Qed.

Lemma with_calls_same p : with_calls (calls p ++ []) p = p.
Proof. destruct p. cbn. now rewrite app_nil_r. Qed.

(** The first [i_close] on an open socket that has both its endpoints. *)
Lemma i_close_attached status p :
  closed_ p = false -> writable_in_ p = true -> readable_out_ p = true ->
  i_close reschedule_default status p =
    Ret tt
      {| closed_ := true;
         channel_in :=
           (if reschedule_default
            then set_resume_notification start_read_again true
            else fun ch => ch)
             (close_with status (unset_resume_notification (channel_in p)));
         channel_out := close_with status (channel_out p);
         writable_in_ := false;
         readable_out_ := false;
         keep_alive_ := true;
         write_reqs_ := write_reqs_ p;
         cached_bytes_ := cached_bytes_ p;
         cache_size := cache_size p;
         calls := calls p ++ [uv_read_stop; close_handle] |}.
Proof.
  intros Hc Hw Hr.
  unfold i_close, stop_read, i_close_handle, emit, bind, gets, modify, ret,
    undefined.
  rewrite Hc. cbn. rewrite Hw, Hr.
  destruct reschedule_default; cbn; rewrite ?Hw; cbn;
    rewrite <- app_assoc; reflexivity.
Qed.

(** C7.  What the read callback does with the byte count [nread] it is
    given.  A positive count, on a socket that has its inbound endpoint:
    the buffer becomes a block of that length and is written to the
    inbound channel; if the write is refused, reading is stopped and no
    notification installed; else if [should_write( )] is false, reading is
    stopped and the notification that restarts it installed; else nothing
    more happens.  [UV_EOF]: the buffer, if there is one, is deleted and
    [i_close] called without an error.  Any other negative count: the
    buffer is deleted and [i_close] called with the exception made from
    the code that [uv_error_to_errno] gives.  On an open socket with both
    endpoints that call closes both channels with this cause, stops the
    reads, drops the endpoints and closes the handle. *)
Theorem read_cb_wraps_or_frees_and_closes (nread : Z) (buf : uv_buf_t) p
    (Heof : UV_EOF < 0) :
  let freed :=
    match base buf with
    | Some b => [delete_buffer b]
    | None => []
    end in
  let cause :=
    if nread =? UV_EOF then None
    else Some (by_errno (uv_error_to_errno nread)) in
  (0 < nread -> writable_in_ p = true ->
   let '(ok, ch) := write (mk_byte_block nread (base buf)) (channel_in p) in
   read_cb UV_EOF uv_error_to_errno reschedule_default nread buf p =
     Ret tt
       (if negb ok then
          with_calls (calls p ++ [uv_read_stop]) (with_channel_in ch p)
        else if negb (should_write ch) then
          with_channel_in (set_resume_notification start_read_again true ch)
            (with_calls (calls p ++ [uv_read_stop]) (with_channel_in ch p))
        else with_channel_in ch p)) /\
  (nread = UV_EOF ->
   read_cb UV_EOF uv_error_to_errno reschedule_default nread buf p =
     i_close reschedule_default None (with_calls (calls p ++ freed) p)) /\
  (nread < 0 -> nread <> UV_EOF ->
   read_cb UV_EOF uv_error_to_errno reschedule_default nread buf p =
     i_close reschedule_default
       (Some (by_errno (uv_error_to_errno nread)))
       (with_calls (calls p ++ freed) p)) /\
  (nread < 0 ->
   closed_ p = false -> writable_in_ p = true -> readable_out_ p = true ->
   read_cb UV_EOF uv_error_to_errno reschedule_default nread buf p =
     Ret tt
       {| closed_ := true;
          channel_in :=
            (if reschedule_default
             then set_resume_notification start_read_again true
             else fun ch => ch)
              (close_with cause (unset_resume_notification (channel_in p)));
          channel_out := close_with cause (channel_out p);
          writable_in_ := false;
          readable_out_ := false;
          keep_alive_ := true;
          write_reqs_ := write_reqs_ p;
          cached_bytes_ := cached_bytes_ p;
          cache_size := cache_size p;
          calls := calls p ++ freed ++ [uv_read_stop; close_handle] |}).
Proof.
  cbv zeta.
  assert (Hfree : free_unused buf p =
            Ret tt
              (with_calls
                 (calls p ++
                  match base buf with
                  | Some b => [delete_buffer b]
                  | None => []
                  end) p)).
  { unfold free_unused. destruct (base buf) as [b|]; [reflexivity|].
    now rewrite with_calls_same. }
  assert (Hend : nread < 0 ->
            read_cb UV_EOF uv_error_to_errno reschedule_default nread buf p =
              i_close reschedule_default
                (if nread =? UV_EOF then None
                 else Some (by_errno (uv_error_to_errno nread)))
                (with_calls
                   (calls p ++
                    match base buf with
                    | Some b => [delete_buffer b]
                    | None => []
                    end) p)).
  { intros Hneg. unfold read_cb.
    replace (0 <? nread) with false by (symmetry; apply Z.ltb_ge; lia).
    unfold bind at 1. rewrite Hfree.
    destruct (nread =? UV_EOF); [reflexivity|].
    replace (nread <? 0) with true by (symmetry; apply Z.ltb_lt; lia).
    reflexivity. }
  split; [|split; [|split]].
  - intros Hpos Hw. unfold read_cb.
    replace (0 <? nread) with true by (symmetry; apply Z.ltb_lt; lia).
    unfold bind at 1, gets at 1. rewrite Hw.
    unfold bind at 1, gets at 1.
    destruct (write (mk_byte_block nread (base buf)) (channel_in p))
      as [ok ch].
    unfold bind at 1, modify at 1.
    destruct ok; cbn [negb]; [|reflexivity].
    unfold bind at 1, gets at 1. cbn [channel_in with_channel_in].
    destruct (should_write ch); cbn [negb]; [reflexivity|].
    unfold stop_read, bind, emit, modify, gets. cbn. now rewrite Hw.
  - intros ->. rewrite Hend by assumption. now rewrite Z.eqb_refl.
  - intros Hneg Hne. rewrite Hend by assumption.
    now replace (nread =? UV_EOF) with false
      by (symmetry; apply Z.eqb_neq; assumption).
  - intros Hneg Hc Hw Hr. rewrite Hend by assumption.
    rewrite i_close_attached by assumption. cbn.
    now rewrite <- app_assoc.
Qed.

(** ** The write completion *)

Lemma find_if_lookup (req : nat) (l : list write_info) (i : nat) :
  find_if req l = Some i ->
  exists item, l !! i = Some item /\ req_ item = req.
Proof.
  revert i. induction l as [|x l IH]; intros i Hf; cbn in Hf; [discriminate|].
  destruct (Nat.eqb_spec req (req_ x)) as [Heq|Hne].
  - injection Hf as <-. exists x. auto.
  - destruct (find_if req l) as [j|]; [|discriminate].
    injection Hf as <-. destruct (IH j eq_refl) as (item & Hl & Hr).
    exists item. auto.
Qed.

(** A completion whose request is in [write_reqs_]: the entry is erased
    and [cached_bytes_] goes down by the length the entry records. *)
Lemma read_again_known (req : nat) (status : Z) p (i : nat)
    (item : write_info) :
  find_if req (write_reqs_ p) = Some i ->
  write_reqs_ p !! i = Some item ->
  let p1 :=
    with_cached_bytes (to_size (cached_bytes_ p - buf_len_ item))
      (with_write_reqs (delete i (write_reqs_ p)) p) in
  read_again reschedule_default req status p =
    if status =? 0 then
      if (cache_size p <=? cached_bytes_ p) &&
         (cached_bytes_ p1 <? cache_size p)
      then begin_write p1 else Ret tt p1
    else i_close reschedule_default None p1.
Proof.
  intros Hf Hl. unfold read_again, bind, gets, modify, ret. cbn.
  rewrite Hf. cbn. rewrite Hl. cbn.
  destruct (status =? 0); [|reflexivity].
  destruct ((cache_size p <=? cached_bytes_ p) && _); [|reflexivity].
  unfold begin_write, bind, gets. cbn. reflexivity.
Qed.

(** A completion whose request is not in [write_reqs_]: after the message
    and [i_close] the handler goes on to read through the end iterator. *)
Lemma read_again_unknown (req : nat) (status : Z) p :
  find_if req (write_reqs_ p) = None ->
  read_again reschedule_default req status p =
    match
      i_close reschedule_default None
        (with_calls (calls p ++ [cerr_remove_this_check]) p)
    with
    | Ret _ p1 => Undefined p1
    | Undefined p1 => Undefined p1
    end.
Proof.
  intros Hf. unfold read_again, bind at 1, gets at 1. rewrite Hf.
  unfold bind at 1. unfold bind at 1, emit at 1, modify at 1.
  destruct (i_close _ _ _) as [[] p1|p1]; reflexivity.
Qed.

End SocketProperties.

Lemma read_cb_wraps_or_frees_and_closes_witness :
  let buf := TcpSocket.mk_uv_buf (Some 1%nat) 65536 in
  let p := TcpSocket.attached 65536 in
  -4095 < 0 /\
  TcpSocket.read_cb (-4095) Z.opp false (-4095) buf p =
    TcpSocket.i_close false None
      (TcpSocket.with_calls
         (TcpSocket.calls p ++ [TcpSocket.delete_buffer 1%nat]) p) /\
  TcpSocket.calls
    (TcpSocket.reached (TcpSocket.read_cb (-4095) Z.opp false (-104) buf p)) =
    [TcpSocket.uv_read_start; TcpSocket.out_read;
     TcpSocket.delete_buffer 1%nat; TcpSocket.uv_read_stop;
     TcpSocket.close_handle] /\
  (let '(ok, ch) :=
     TcpSocket.write (TcpSocket.mk_byte_block 512 (Some 1%nat))
       (TcpSocket.channel_in p) in
   TcpSocket.read_cb (-4095) Z.opp false 512 buf p =
     TcpSocket.Ret tt
       (if negb ok then
          TcpSocket.with_calls (TcpSocket.calls p ++ [TcpSocket.uv_read_stop])
            (TcpSocket.with_channel_in ch p)
        else if negb (TcpSocket.should_write ch) then
          TcpSocket.with_channel_in
            (TcpSocket.set_resume_notification TcpSocket.start_read_again
               true ch)
            (TcpSocket.with_calls
               (TcpSocket.calls p ++ [TcpSocket.uv_read_stop])
               (TcpSocket.with_channel_in ch p))
        else TcpSocket.with_channel_in ch p)).
Proof.
  pose proof (read_cb_wraps_or_frees_and_closes (-4095) Z.opp false (-4095)
                (TcpSocket.mk_uv_buf (Some 1%nat) 65536)
                (TcpSocket.attached 65536) ltac:(lia)) as (_ & Heof & _ & _).
  pose proof (read_cb_wraps_or_frees_and_closes (-4095) Z.opp false (-104)
                (TcpSocket.mk_uv_buf (Some 1%nat) 65536)
                (TcpSocket.attached 65536) ltac:(lia)) as (_ & _ & _ & Herr).
  pose proof (read_cb_wraps_or_frees_and_closes (-4095) Z.opp false 512
                (TcpSocket.mk_uv_buf (Some 1%nat) 65536)
                (TcpSocket.attached 65536) ltac:(lia)) as (Hdata & _ & _ & _).
  split; [lia|]. split; [exact (Heof eq_refl)|]. split.
  - rewrite (Herr ltac:(lia) eq_refl eq_refl eq_refl). reflexivity.
  - exact (Hdata ltac:(lia) eq_refl).
Defined.

(** C6 fails on the code: with a resume notification installed, the
    second [close] of a channel invokes it once more. *)
Lemma second_close_notifies_again :
  let c := Channel.set_resume_notification (Some 7%nat)
             (@Channel.channel nat 4 3) in
  snd (Channel.close_n 1 c) = [Channel.Invoked Channel.ByClose 7%nat] /\
  snd (Channel.close_n 2 c) =
    [Channel.Invoked Channel.ByClose 7%nat;
     Channel.Invoked Channel.ByClose 7%nat] /\
  snd (Channel.close (fst (Channel.close c))) <> [].
Proof.
  cbn. repeat split. discriminate.
Qed.

(** C8 at a completion for a request that [write_reqs_] does not hold: the
    handler writes its message and closes the socket, and then, instead of
    returning, goes on to the descriptor behind the end iterator. *)
Lemma read_again_unknown_request_runs_on :
  let p := TcpSocket.attached 65536 in
  TcpSocket.find_if 3%nat (TcpSocket.write_reqs_ p) = None /\
  TcpSocket.read_again false 3%nat 0 p =
    TcpSocket.Undefined
      (TcpSocket.mk_pimpl true
         (TcpSocket.close_with None
            (TcpSocket.unset_resume_notification (TcpSocket.channel_in p)))
         (TcpSocket.close_with None (TcpSocket.channel_out p))
         false false true [] 0 65536
         [TcpSocket.uv_read_start; TcpSocket.out_read;
          TcpSocket.cerr_remove_this_check; TcpSocket.uv_read_stop;
          TcpSocket.close_handle]) /\
  TcpSocket.read_again false 3%nat 0 p <>
    TcpSocket.bind (TcpSocket.emit TcpSocket.cerr_remove_this_check)
      (fun _ => TcpSocket.i_close false None) p.
Proof.
  split; [reflexivity|]. split; [reflexivity|]. discriminate.
Qed.

(** * More about the channel *)

Section ChannelHistories.

Import Channel.

Context {V : Type}.

Implicit Types (c : shared_channel V) (t v : V) (ops : list (op V)).
Implicit Types (d settled : list (slot V)).

Lemma resume_shape c : exists b, fst (resume c) = with_paused V b c.
Proof.
  unfold resume. destruct (paused_ c) eqn:Hp.
  - now exists false.
  - exists false. cbn. destruct c. cbn in *. now subst.
Qed.

Lemma delivered_app d d' : delivered (d ++ d') = delivered d ++ delivered d'.
Proof.
  induction d as [|[|v|e] d IH]; cbn; auto. now rewrite IH.
Qed.

Lemma delivered_empty (n : nat) : @delivered V (replicate n Empty) = [].
Proof. induction n; cbn; auto. Qed.

Lemma delivered_failure (n : nat) (e : exception) :
  @delivered V (replicate n (Failure e)) = [].
Proof. induction n; cbn; auto. Qed.

Lemma settled_lookup settled (n : nat) (tail : list (slot V)) (i : nat)
    (s : slot V) :
  (settled ++ replicate n Empty) !! i = Some s -> s <> Empty ->
  (settled ++ tail) !! i = Some s.
Proof.
  intros Hl Hs. destruct (decide (i < length settled)%nat) as [Hlt|Hge].
  - rewrite lookup_app_l in Hl by assumption. now rewrite lookup_app_l.
  - rewrite lookup_app_r in Hl by lia.
    apply lookup_replicate in Hl as [-> _]. contradiction.
Qed.

Lemma fold_set_exception settled (n : nat) :
  fold_left (set_exception V) (seq (length settled) n)
    (settled ++ replicate n Empty) =
  settled ++ replicate n (Failure channel_closed_exception).
Proof.
  revert settled. induction n as [|n IH]; intros settled; [reflexivity|].
  cbn [seq fold_left replicate]. unfold set_exception at 2.
  rewrite insert_app_r_alt by lia. rewrite Nat.sub_diag.
  cbn [insert list_insert].
  specialize (IH (settled ++ [Failure channel_closed_exception])).
  rewrite length_app in IH. cbn [length] in IH.
  replace (length settled + 1)%nat with (S (length settled)) in IH by lia.
  rewrite <- !app_assoc in IH. exact IH.
Qed.

Lemma seq_nil_inv (a n : nat) : seq a n = [] -> n = O.
Proof. destruct n; [reflexivity|discriminate]. Qed.

Lemma sound_intro c settled (n : nat) :
  one_sided c ->
  (closed_ c = true -> waiters_ c = [] /\ scopes_ c = []) ->
  defers c = settled ++ replicate n Empty ->
  waiters_ c = seq (length settled) n ->
  Forall (fun s => s <> Empty) settled ->
  sound c.
Proof.
  intros H1 H2 H3 H4 H5. split; [assumption|]. split; [assumption|].
  now exists settled, n.
Qed.


Ltac fields :=
  cbn [waiters_ queue_ closed_ paused_ buffer_count_ resume_count_
       resume_notification_ scopes_ defers default_queue_ with_waiters
       with_queue with_closed with_paused with_resume_notification
       with_scopes with_defers with_default_queue].

Ltac fields_in H :=
  cbn [waiters_ queue_ closed_ paused_ buffer_count_ resume_count_
       resume_notification_ scopes_ defers default_queue_ with_waiters
       with_queue with_closed with_paused with_resume_notification
       with_scopes with_defers with_default_queue] in H.

Lemma sound_step o c :
  sound c ->
  sound (fst (step o c)) /\
  delivered (defers (fst (step o c))) ++ queue_ (fst (step o c)) =
    (delivered (defers c) ++ queue_ c) ++ accepted [o] c /\
  (forall i s, defers c !! i = Some s -> s <> Empty ->
               defers (fst (step o c)) !! i = Some s).
Proof.
  intros (Hone & Hclosed & settled & n & Hd & Hw & Hf).
  destruct o as [t| | |fn|s0|]; cbn [step accepted].
  - (* send *)
    unfold send. destruct (closed_ c) eqn:Hc; cbn [fst snd].
    { rewrite !app_nil_r. split; [|auto].
      apply (sound_intro c settled n); auto. }
    destruct (waiters_ c) as [|w rest] eqn:Hwait; cbn [fst snd].
    + destruct (buffer_count_ c <=? size (queue_ c)); cbn;
        rewrite <- app_assoc.
      * split; [|auto].
        apply (sound_intro _ settled n); cbn; auto.
        -- right. assumption.
        -- rewrite Hc. discriminate.
        -- now rewrite Hwait.
      * split; [|auto].
        apply (sound_intro _ settled n); cbn; auto.
        -- right. assumption.
        -- rewrite Hc. discriminate.
        -- now rewrite Hwait.
    + destruct n as [|n]; [discriminate|].
      cbn [seq] in Hw. injection Hw as Hw0 Hrest.
      assert (Hq : queue_ c = []).
      { destruct Hone as [Hq|Hq]; [assumption|]. rewrite Hwait in Hq.
        discriminate. }
      assert (Hd' : <[w := Value t]> (defers c) =
                    settled ++ Value t :: replicate n Empty).
      { rewrite Hd, Hw0. rewrite insert_app_r_alt by lia.
        now rewrite Nat.sub_diag. }
      cbn. unfold set_value. rewrite Hd', Hq.
      split; [|split].
      * apply (sound_intro _ (settled ++ [Value t]) n); cbn.
        -- left. assumption.
        -- rewrite Hc. discriminate.
        -- now rewrite <- app_assoc.
        -- rewrite length_app. cbn.
           replace (length settled + 1)%nat with (S (length settled)) by lia.
           assumption.
        -- apply Forall_app. split; [assumption|].
           constructor; [discriminate|constructor].
      * rewrite Hd, !delivered_app. cbn.
        now rewrite !delivered_empty, !app_nil_r.
      * intros i s Hl Hs. rewrite Hd in Hl.
        apply (settled_lookup settled (S n) _ i s Hl Hs).
  - (* receive *)
    unfold receive. destruct (queue_ c) as [|t rest] eqn:Hq.
    + destruct (closed_ c) eqn:Hc.
      * destruct (Hclosed eq_refl) as [Hnone Hscopes].
        rewrite Hnone in Hw. symmetry in Hw. apply seq_nil_inv in Hw. subst n.
        cbn [replicate] in Hd. rewrite app_nil_r in Hd.
        cbn. rewrite Hq, !app_nil_r.
        split; [|split].
        -- apply (sound_intro _
                    (settled ++ [Failure channel_closed_exception]) O);
             cbn; auto.
           ++ now rewrite Hd, app_nil_r.
           ++ apply Forall_app. split; [assumption|].
              constructor; [discriminate|constructor].
        -- now rewrite delivered_app, app_nil_r.
        -- intros i s Hl Hs. apply lookup_app_l_Some. assumption.
      * cbn [new_defer fst snd].
        match goal with
        | |- context [resume ?x] =>
            destruct (resume_shape x) as [b Hb]; destruct (resume x) as [c3 evs]
        end.
        cbn [fst snd] in *. subst c3. cbn. rewrite Hq, !app_nil_r.
        split; [|split].
        -- apply (sound_intro _ settled (S n)); fields; auto.
           ++ left. assumption.
           ++ rewrite Hc. discriminate.
           ++ now rewrite Hd, <- app_assoc, <- replicate_S_end.
           ++ rewrite Hw, Hd, length_app, length_replicate. symmetry.
              apply seq_S.
        -- rewrite !delivered_app. cbn. now rewrite app_nil_r.
        -- intros i s Hl Hs. apply lookup_app_l_Some. assumption.
    + assert (Hnone : waiters_ c = []).
      { destruct Hone as [H0|H0]; [rewrite Hq in H0; discriminate|assumption]. }
      rewrite Hnone in Hw. symmetry in Hw. apply seq_nil_inv in Hw. subst n.
      cbn [replicate] in Hd. rewrite app_nil_r in Hd.
      assert (Hd' : <[length (defers c) := Value t]> (defers c ++ [Empty]) =
                    defers c ++ [Value t]).
      { rewrite insert_app_r_alt by lia. now rewrite Nat.sub_diag. }
      destruct (size rest <? resume_count_ c) eqn:Hlow; cbn; rewrite ?Hlow; cbn;
        unfold set_value; cbn; rewrite Hd', !app_nil_r.
      * split; [|split].
        -- apply (sound_intro _ (settled ++ [Value t]) O); fields; auto.
           ++ right. assumption.
           ++ cbn. now rewrite Hd, app_nil_r.
           ++ apply Forall_app. split; [assumption|].
              constructor; [discriminate|constructor].
        -- rewrite delivered_app. cbn. now rewrite <- app_assoc.
        -- intros i s Hl Hs. apply lookup_app_l_Some. assumption.
      * split; [|split].
        -- apply (sound_intro _ (settled ++ [Value t]) O); fields; auto.
           ++ right. assumption.
           ++ cbn. now rewrite Hd, app_nil_r.
           ++ apply Forall_app. split; [assumption|].
              constructor; [discriminate|constructor].
        -- rewrite delivered_app. cbn. now rewrite <- app_assoc.
        -- intros i s Hl Hs. apply lookup_app_l_Some. assumption.
  - (* close *)
    cbn. rewrite !app_nil_r. rewrite Hd, Hw, fold_set_exception.
    split; [|split].
    + apply (sound_intro _
               (settled ++ replicate n (Failure channel_closed_exception)) O);
        cbn; auto.
      * now right.
      * now rewrite app_nil_r.
      * apply Forall_app. split; [assumption|].
        apply Forall_replicate. discriminate.
    + rewrite !delivered_app, delivered_empty, delivered_failure. reflexivity.
    + intros i s Hl Hs. apply (settled_lookup settled n _ i s Hl Hs).
  - (* set_resume_notification *)
    cbn. rewrite !app_nil_r. split; [|auto].
    apply (sound_intro _ settled n); auto.
  - (* add_scope_until_closed *)
    unfold add_scope_until_closed. destruct (closed_ c) eqn:Hc; cbn;
      rewrite !app_nil_r; (split; [|auto]).
    + apply (sound_intro _ settled n); auto.
    + apply (sound_intro _ settled n); cbn; auto. rewrite Hc. discriminate.
  - (* a resume closure *)
    unfold run_task. destruct (default_queue_ c) as [|k] eqn:Hk; cbn [fst].
    + rewrite !app_nil_r. split; [|auto]. apply (sound_intro _ settled n); auto.
    + destruct (resume_shape (with_default_queue V k c)) as [b Hb].
      rewrite Hb. cbn. rewrite !app_nil_r. split; [|auto].
      apply (sound_intro _ settled n); auto.
Qed.


Lemma sound_channel (buffer_count resume_count : Z) :
  sound (@channel V buffer_count resume_count).
Proof.
  apply (sound_intro _ [] O); cbn; auto; try discriminate. now left.
Qed.

Lemma sound_run ops c : sound c -> sound (fst (run ops c)).
Proof.
  revert c. induction ops as [|o ops IH]; intros c Hs; [assumption|].
  rewrite run_cons. cbn [fst]. apply IH. now apply sound_step.
Qed.

Lemma accepted_cons o ops c :
  accepted (o :: ops) c = accepted [o] c ++ accepted ops (fst (step o c)).
Proof. cbn [accepted]. now rewrite app_nil_r. Qed.

Lemma run_conserves ops c :
  sound c ->
  delivered (defers (fst (run ops c))) ++ queue_ (fst (run ops c)) =
    (delivered (defers c) ++ queue_ c) ++ accepted ops c.
Proof.
  revert c. induction ops as [|o ops IH]; intros c Hs.
  - cbn. now rewrite app_nil_r.
  - destruct (sound_step o c Hs) as (Hs1 & Hcons & _).
    rewrite run_cons, accepted_cons. cbn [fst].
    rewrite (IH _ Hs1), Hcons. now rewrite app_assoc.
Qed.

Lemma fold_set_exception_length (ws : list nat) d :
  length (fold_left (set_exception V) ws d) = length d.
Proof.
  revert d. induction ws as [|w ws IH]; intros d; [reflexivity|].
  cbn. rewrite IH. unfold set_exception. apply length_insert.
Qed.

Lemma step_defers_length o c :
  length (defers (fst (step o c))) = (length (defers c) + receives [o])%nat.
Proof.
  destruct o as [t| | |fn|s0|]; cbn [step receives].
  - unfold send. destruct (closed_ c); cbn; [lia|].
    destruct (waiters_ c); cbn.
    + destruct (buffer_count_ c <=? size (queue_ c)); cbn; lia.
    + unfold set_value. rewrite length_insert. cbn. lia.
  - unfold receive. destruct (queue_ c) as [|t rest].
    + destruct (closed_ c); cbn; [now rewrite length_app|].
      match goal with
      | |- context [resume ?x] =>
          destruct (resume_shape x) as [b Hb]; destruct (resume x) as [c3 evs]
      end.
      cbn [fst snd] in *. subst c3. cbn. now rewrite length_app.
    + cbn. unfold set_value. rewrite length_insert.
      destruct (size rest <? resume_count_ c); cbn; now rewrite length_app.
  - cbn. rewrite fold_set_exception_length. lia.
  - cbn. lia.
  - unfold add_scope_until_closed. destruct (closed_ c); cbn; lia.
  - unfold run_task. destruct (default_queue_ c) as [|k]; cbn [fst]; [lia|].
    destruct (resume_shape (with_default_queue V k c)) as [b Hb].
    rewrite Hb. cbn. lia.
Qed.

Lemma run_defers_length ops c :
  length (defers (fst (run ops c))) = (length (defers c) + receives ops)%nat.
Proof.
  revert c. induction ops as [|o ops IH]; intros c; [cbn; lia|].
  rewrite run_cons. cbn [fst]. rewrite IH, step_defers_length.
  destruct o; cbn; lia.
Qed.

Lemma receive_handle c : fst (fst (receive c)) = length (defers c).
Proof.
  unfold receive. destruct (queue_ c) as [|t rest].
  - destruct (closed_ c); [reflexivity|]. cbn [new_defer].
    now destruct (resume _).
  - cbn. now destruct (size rest <? resume_count_ c).
Qed.

(** X1.  Nothing is lost, doubled or reordered.  After any history of a
    channel, the values of the promises that [receive] has fulfilled, in
    the order of the calls of [receive], followed by the values still
    buffered, are exactly the values that [send] took in, in the order
    they were sent.  The store holds one promise for each call of
    [receive], and the next call gets the next handle. *)
Theorem nothing_lost_nothing_reordered (buffer_count resume_count : Z) ops :
  let c := fst (run ops (channel buffer_count resume_count)) in
  delivered (defers c) ++ queue_ c =
    accepted ops (channel buffer_count resume_count) /\
  length (defers c) = receives ops /\
  fst (fst (receive c)) = receives ops.
Proof.
  cbv zeta. split; [|split].
  - rewrite run_conserves by apply sound_channel. reflexivity.
  - now rewrite run_defers_length.
  - now rewrite receive_handle, run_defers_length.
Qed.

Lemma run_keeps_settled ops c (i : nat) (s : slot V) :
  sound c -> defers c !! i = Some s -> s <> Empty ->
  defers (fst (run ops c)) !! i = Some s.
Proof.
  revert c. induction ops as [|o ops IH]; intros c Hs Hl Hne; [assumption|].
  destruct (sound_step o c Hs) as (Hs1 & _ & Hkeep).
  rewrite run_cons. cbn [fst]. apply IH; auto.
Qed.

(** X3.  A promise is settled once.  Whatever a promise of [receive] holds
    once it is fulfilled or rejected, it holds after every later history
    of the channel. *)
Theorem settled_promise_never_changes
    (buffer_count resume_count : Z) ops ops' (i : nat) (s : slot V) :
  let c := fst (run ops (channel buffer_count resume_count)) in
  defers c !! i = Some s -> s <> Empty ->
  defers (fst (run ops' c)) !! i = Some s.
Proof.
  cbv zeta. apply run_keeps_settled. apply sound_run, sound_channel.
Qed.

Lemma parked_pending c (i : nat) :
  parked c -> (defers c !! i = Some Empty <-> In i (waiters_ c)).
Proof.
  intros (settled & n & Hd & Hw & Hf). rewrite Hd, Hw, in_seq. split.
  - intros Hl. destruct (decide (i < length settled)%nat) as [Hlt|Hge].
    + rewrite lookup_app_l in Hl by assumption.
      rewrite Forall_forall in Hf. exfalso.
      apply (Hf Empty); [|reflexivity].
      eapply list_elem_of_lookup_2. exact Hl.
    + rewrite lookup_app_r in Hl by lia.
      apply lookup_replicate in Hl as [_ Hlt]. lia.
  - intros [Hge Hlt]. rewrite lookup_app_r by lia.
    apply lookup_replicate_2. lia.
Qed.

(** X4.  No promise is forgotten.  After any history, the promises that
    are still pending are exactly those whose handles are in [waiters_],
    where the next [send] or [close] finds them; on a closed channel no
    promise is pending. *)
Theorem pending_promises_are_the_waiters
    (buffer_count resume_count : Z) ops (i : nat) :
  let c := fst (run ops (channel buffer_count resume_count)) in
  (defers c !! i = Some Empty <-> In i (waiters_ c)) /\
  (closed_ c = true -> defers c !! i <> Some Empty).
Proof.
  cbv zeta.
  destruct (sound_run ops _ (sound_channel buffer_count resume_count))
    as (_ & Hclosed & Hparked).
  split; [now apply parked_pending|].
  intros Hc Hl. apply (parked_pending _ i Hparked) in Hl.
  destruct (Hclosed Hc) as [Hnone _]. rewrite Hnone in Hl. contradiction.
Qed.

(** X5.  After any history, a channel that is closed has no waiter and
    holds no scope: [close] drops them all, and after it [receive] parks
    nobody and [add_scope_until_closed] keeps nothing. *)
Theorem closed_channel_keeps_no_waiter_no_scope
    (buffer_count resume_count : Z) ops :
  let c := fst (run ops (channel buffer_count resume_count)) in
  closed_ c = true -> waiters_ c = [] /\ scopes_ c = [].
Proof.
  cbv zeta.
  destruct (sound_run ops _ (sound_channel buffer_count resume_count))
    as (_ & Hclosed & _).
  exact Hclosed.
Qed.


Lemma step_after_close o c :
  closed_ c = true ->
  closed_ (fst (step o c)) = true /\
  accepted [o] c = [] /\
  queue_ (fst (step o c)) = drop (receives [o]) (queue_ c).
Proof.
  intros Hc. destruct o as [t| | |fn|s0|]; cbn [step accepted receives].
  - rewrite (send_closed t c Hc). cbn. auto.
  - unfold receive. destruct (queue_ c) as [|t rest] eqn:Hq.
    + rewrite Hc. cbn. rewrite Hq. auto.
    + cbn. destruct (size rest <? resume_count_ c); cbn; auto.
  - cbn. auto.
  - cbn. auto.
  - unfold add_scope_until_closed. rewrite Hc. cbn. auto.
  - unfold run_task.
    destruct (default_queue_ c) as [|k]; cbn [fst]; [cbn; auto|].
    destruct (resume_shape (with_default_queue V k c)) as [b Hb].
    rewrite Hb. cbn. auto.
Qed.

(** X6.  A closed channel stays closed.  Over any later history it
    remains closed with [should_send] false, every [send] throws, and the
    queue changes only by [receive] taking values from its front. *)
Theorem closed_channel_takes_nothing_in c ops (Hclosed : closed_ c = true) :
  let c' := fst (run ops c) in
  closed_ c' = true /\
  should_send c' = false /\
  accepted ops c = [] /\
  queue_ c' = drop (receives ops) (queue_ c).
Proof.
  cbv zeta. revert c Hclosed.
  induction ops as [|o ops IH]; intros c Hc.
  - cbn. unfold should_send. rewrite Hc, andb_false_r. auto.
  - destruct (step_after_close o c Hc) as (Hc1 & Ha & Hq).
    destruct (IH _ Hc1) as (Hc' & Hs' & Ha' & Hq').
    rewrite run_cons, accepted_cons. cbn [fst].
    rewrite Ha, Ha', Hq', Hq, drop_drop.
    repeat split; try assumption.
    f_equal. destruct o; reflexivity.
Qed.

Lemma wakeup_step o c : wakeup_pending c -> wakeup_pending (fst (step o c)).
Proof.
  unfold wakeup_pending. intros [Hle Hwake].
  destruct o as [t| | |fn|s0|]; cbn [step].
  - unfold send. destruct (closed_ c); cbn [fst snd]; [auto|].
    destruct (waiters_ c) as [|w rest]; cbn [fst snd]; [|fields; auto].
    destruct (Z.leb_spec (buffer_count_ c) (size (queue_ c))) as [Hfull|Hroom];
      fields; rewrite size_app_one; (split; [assumption|]).
    + intros _ Hlow. lia.
    + intros Hp Hlow. apply Hwake; [assumption|lia].
  - unfold receive. destruct (queue_ c) as [|t rest] eqn:Hq.
    + destruct (closed_ c); [cbn; rewrite Hq; auto|]. cbn [new_defer fst snd].
      match goal with
      | |- context [resume ?x] =>
          pose proof (resume_paused x) as Hp;
          destruct (resume_shape x) as [b Hb]; destruct (resume x) as [c3 evs]
      end.
      cbn [fst snd] in *. subst c3. fields. fields_in Hp. subst b.
      split; [assumption|discriminate].
    + cbn [fst snd new_defer]. fields.
      destruct (Z.ltb_spec (size rest) (resume_count_ c)) as [Hlow|Hhigh];
        fields; (split; [assumption|]).
      * intros _ _. lia.
      * intros _ Hlow. lia.
  - cbn. auto.
  - cbn. auto.
  - unfold add_scope_until_closed. destruct (closed_ c); cbn; auto.
  - unfold run_task. destruct (default_queue_ c) as [|k] eqn:Hk; cbn [fst].
    { rewrite Hk. auto. }
    pose proof (resume_paused (with_default_queue V k c)) as Hp.
    destruct (resume_shape (with_default_queue V k c)) as [b Hb].
    rewrite Hb in *. fields. fields_in Hp. subst b.
    split; [assumption|discriminate].
Qed.

Lemma wakeup_run ops c : wakeup_pending c -> wakeup_pending (fst (run ops c)).
Proof.
  revert c. induction ops as [|o ops IH]; intros c Hc; [assumption|].
  rewrite run_cons. cbn [fst]. apply IH. now apply wakeup_step.
Qed.

(** X7.  No wake-up is lost.  After any history, a channel that is paused
    while its queue is below [resume_count_] has a [resume] closure waiting
    on [default_queue_]. *)
Theorem drained_paused_channel_has_resume_pending
    (buffer_count resume_count : Z) ops :
  let c := fst (run ops (channel buffer_count resume_count)) in
  paused_ c = true -> size (queue_ c) < resume_count_ c ->
  (0 < default_queue_ c)%nat.
Proof.
  cbv zeta. apply wakeup_run. split; cbn; [lia|discriminate].
Qed.

Lemma sends_buffered (vs : list V) c :
  closed_ c = false -> waiters_ c = [] ->
  let c' := fst (run (map Send vs) c) in
  queue_ c' = queue_ c ++ vs /\ closed_ c' = false /\ waiters_ c' = [] /\
  defers c' = defers c.
Proof.
  revert c. induction vs as [|v vs IH]; intros c Hc Hw.
  - cbn. rewrite app_nil_r. auto.
  - cbn [map]. rewrite run_cons. cbn [fst step].
    rewrite (send_buffers v c Hc Hw). cbn [fst snd].
    set (c1 := with_queue V _ _).
    assert (H1 : queue_ c1 = queue_ c ++ [v] /\ closed_ c1 = false /\
                 waiters_ c1 = [] /\ defers c1 = defers c).
    { subst c1. destruct (buffer_count_ c <=? size (queue_ c)); cbn; auto. }
    destruct H1 as (Hq1 & Hc1 & Hw1 & Hd1).
    destruct (IH c1 Hc1 Hw1) as (Hq & Hc' & Hw' & Hd').
    rewrite Hq1, <- app_assoc in Hq. rewrite Hd1 in Hd'. cbn in Hq. auto.
Qed.

Lemma receive_n_buffered c :
  fst (receive_n (length (queue_ c)) c) =
    map (fun v => Some (Value v)) (queue_ c) /\
  queue_ (snd (receive_n (length (queue_ c)) c)) = [].
Proof.
  remember (queue_ c) as q eqn:Hq. revert c Hq.
  induction q as [|t rest IH]; intros c Hq; [cbn; auto|].
  destruct (receive_buffered c t rest (eq_sym Hq)) as (Hp & _ & Hq').
  cbn [length receive_n map].
  specialize (IH (snd (fst (receive c))) (eq_sym Hq')).
  destruct (receive_n (length rest) (snd (fst (receive c)))) as [ps c'].
  cbn [fst snd] in *. destruct IH as [IH1 IH2]. now rewrite Hp, IH1.
Qed.

(** X2.  On an open channel with no waiter, values sent are buffered
    behind those already there, and as many calls of [receive] as there
    are buffered values return them, fulfilled and in that order, leaving
    the queue empty. *)
Theorem values_come_out_in_send_order (vs : list V) c
    (Hopen : closed_ c = false) (Hnone : waiters_ c = []) :
  let c' := fst (run (map Send vs) c) in
  queue_ c' = queue_ c ++ vs /\
  fst (receive_n (length (queue_ c ++ vs)) c') =
    map (fun v => Some (Value v)) (queue_ c ++ vs) /\
  queue_ (snd (receive_n (length (queue_ c ++ vs)) c')) = [].
Proof.
  cbv zeta.
  destruct (sends_buffered vs c Hopen Hnone) as (Hq & _).
  split; [assumption|]. rewrite <- Hq. apply receive_n_buffered.
Qed.


Lemma resume_invokes c o fn :
  In (Invoked o fn) (snd (resume c)) -> resume_notification_ c = Some fn.
Proof.
  unfold resume. destruct (paused_ c); cbn; [|contradiction].
  destruct (resume_notification_ c) as [g|]; cbn; intros [Hi|Hi];
    try discriminate; try contradiction.
  destruct Hi as [Hi|Hi]; [congruence|contradiction].
Qed.

Lemma step_invokes o' c o fn :
  In (Invoked o fn) (snd (step o' c)) -> resume_notification_ c = Some fn.
Proof.
  destruct o' as [t| | |g|s0|]; cbn [step].
  - unfold send. destruct (closed_ c); cbn; [contradiction|].
    destruct (waiters_ c); cbn; [|contradiction].
    destruct (buffer_count_ c <=? size (queue_ c)); cbn; [|contradiction].
    intros [Hi|Hi]; [discriminate|contradiction].
  - unfold receive. destruct (queue_ c) as [|t rest].
    + destruct (closed_ c); cbn; [contradiction|].
      match goal with
      | |- context [resume ?x] =>
          pose proof (resume_invokes x o fn) as Hr; destruct (resume x)
      end.
      exact Hr.
    + cbn. destruct (size rest <? resume_count_ c); cbn; contradiction.
  - cbn. destruct (resume_notification_ c) as [g|]; cbn; [|contradiction].
    intros [Hi|Hi]; [congruence|contradiction].
  - cbn. contradiction.
  - cbn. contradiction.
  - unfold run_task. destruct (default_queue_ c) as [|k]; cbn [snd];
      [contradiction|].
    apply (resume_invokes (with_default_queue V k c)).
Qed.

Lemma step_hook o c :
  resume_notification_ (fst (step o c)) =
    match o with
    | SetResumeNotification g => g
    | _ => resume_notification_ c
    end.
Proof.
  destruct o as [t| | |g|s0|]; cbn [step]; try reflexivity.
  - unfold send. destruct (closed_ c); cbn; [reflexivity|].
    destruct (waiters_ c); cbn; [|reflexivity].
    now destruct (buffer_count_ c <=? size (queue_ c)).
  - unfold receive. destruct (queue_ c) as [|t rest].
    + destruct (closed_ c); cbn; [reflexivity|].
      match goal with
      | |- context [resume ?x] =>
          destruct (resume_shape x) as [b Hb]; destruct (resume x) as [c3 evs]
      end.
      cbn [fst snd] in *. now subst c3.
    + cbn. now destruct (size rest <? resume_count_ c).
  - unfold add_scope_until_closed. now destruct (closed_ c).
  - unfold run_task. destruct (default_queue_ c) as [|k]; cbn [fst];
      [reflexivity|].
    destruct (resume_shape (with_default_queue V k c)) as [b Hb].
    now rewrite Hb.
Qed.

(** X8.  The channel invokes no callback but the resume notification: one
    that it had from the start or that [set_resume_notification] has
    installed in the course of the history. *)
Theorem only_an_installed_hook_is_invoked c ops o fn :
  In (Invoked o fn) (snd (run ops c)) ->
  resume_notification_ c = Some fn \/
  In (SetResumeNotification (Some fn)) ops.
Proof.
  revert c. induction ops as [|o' ops IH]; intros c Hin; [contradiction|].
  rewrite run_cons in Hin. cbn [snd] in Hin.
  apply in_app_or in Hin as [Hin|Hin].
  - left. exact (step_invokes o' c o fn Hin).
  - destruct (IH _ Hin) as [Hh|Hh]; [|right; now right].
    rewrite step_hook in Hh.
    destruct o' as [t| | |g|s0|]; try (left; assumption).
    right. left. congruence.
Qed.


Lemma transitions_app (evs evs' : list event) :
  transitions (evs ++ evs') = (transitions evs + transitions evs')%nat.
Proof. induction evs as [|[| |o fn] evs IH]; cbn; auto. Qed.

Lemma resume_invocations_app (evs evs' : list event) :
  resume_invocations (evs ++ evs') =
    (resume_invocations evs + resume_invocations evs')%nat.
Proof. induction evs as [|[| |[|] fn] evs IH]; cbn; auto. Qed.

Lemma resume_notifies c fn :
  resume_notification_ c = Some fn ->
  resume_invocations (snd (resume c)) = transitions (snd (resume c)).
Proof.
  intros Hh. unfold resume. destruct (paused_ c); [|reflexivity].
  cbn. now rewrite Hh.
Qed.

Lemma step_notifies o c fn :
  resume_notification_ c = Some fn ->
  resume_invocations (snd (step o c)) = transitions (snd (step o c)).
Proof.
  intros Hh. destruct o as [t| | |g|s0|]; cbn [step].
  - unfold send. destruct (closed_ c); cbn; [reflexivity|].
    destruct (waiters_ c); cbn; [|reflexivity].
    now destruct (buffer_count_ c <=? size (queue_ c)).
  - unfold receive. destruct (queue_ c) as [|t rest].
    + destruct (closed_ c); cbn; [reflexivity|].
      match goal with
      | |- context [resume ?x] =>
          pose proof (resume_notifies x fn Hh) as Hr; destruct (resume x)
      end.
      exact Hr.
    + cbn. now destruct (size rest <? resume_count_ c).
  - cbn. now rewrite Hh.
  - reflexivity.
  - reflexivity.
  - unfold run_task. destruct (default_queue_ c) as [|k]; cbn [snd];
      [reflexivity|].
    apply (resume_notifies (with_default_queue V k c) fn Hh).
Qed.

(** X9.  With a resume notification installed and not replaced, every
    transition of [paused_] from true to false invokes it: [resume] makes
    as many invocations as there are transitions. *)
Theorem every_transition_notifies c ops fn
    (Hhook : resume_notification_ c = Some fn)
    (Hkept : forall g, ~ In (SetResumeNotification g) ops) :
  resume_invocations (snd (run ops c)) = transitions (snd (run ops c)).
Proof.
  revert c Hhook. induction ops as [|o ops IH]; intros c Hh; [reflexivity|].
  rewrite run_cons. cbn [snd].
  rewrite resume_invocations_app, transitions_app.
  rewrite (step_notifies o c fn Hh). f_equal.
  apply IH.
  - intros g Hg. apply (Hkept g). now right.
  - rewrite step_hook. destruct o as [t| | |g|s0|]; try assumption.
    exfalso. apply (Hkept g). now left.
Qed.

End ChannelHistories.

(** * More about the socket adapter *)

Section SocketHistories.

Import TcpSocket.

Context {chan : Type} `{Endpoints chan}.

Variable UV_EOF : Z.
Variable uv_error_to_errno : Z -> Z.
Variable reschedule_default : bool.

Implicit Types (p : pimpl (chan := chan)) (status : option io_exception).
Implicit Types (l : list action) (a : action).

Lemma closes_app (l1 l2 : list call) :
  closes (l1 ++ l2) = (closes l1 + closes l2)%nat.
Proof. induction l1 as [|[] l1 IH]; cbn; auto. Qed.

Lemma reads_asked_app (l1 l2 : list call) :
  reads_asked (l1 ++ l2) = (reads_asked l1 + reads_asked l2)%nat.
Proof. induction l1 as [|[] l1 IH]; cbn; auto. Qed.

Lemma writes_submitted_app (l1 l2 : list call) :
  writes_submitted (l1 ++ l2) = (writes_submitted l1 + writes_submitted l2)%nat.
Proof. induction l1 as [|[] l1 IH]; cbn; auto. Qed.

Lemma inbound_only_refl p : inbound_only p p.
Proof. repeat split. Qed.

Lemma inbound_only_trans p p0 p1 :
  inbound_only p p0 -> inbound_only p0 p1 -> inbound_only p p1.
Proof.
  unfold inbound_only. intros (A1&A2&A3&A4&A5&A6&A7&A8&A9)
    (B1&B2&B3&B4&B5&B6&B7&B8&B9).
  repeat split; congruence.
Qed.

Ltac counts :=
  rewrite ?closes_app, ?reads_asked_app, ?writes_submitted_app; cbn; lia.

Lemma stop_read_inbound (reschedule : bool) p :
  inbound_only p (reached (stop_read reschedule p)).
Proof.
  unfold stop_read, bind, emit, modify, gets, ret, undefined. cbn.
  destruct reschedule; cbn; [destruct (writable_in_ p) eqn:Hw; cbn|];
    repeat split; cbn; auto; counts.
Qed.


Lemma start_read_inbound p : inbound_only p (reached (start_read p)).
Proof. cbn. repeat split; cbn; auto; counts. Qed.

Lemma free_unused_inbound (buf : uv_buf_t) p :
  exists p0, free_unused buf p = Ret tt p0 /\ inbound_only p p0.
Proof.
  unfold free_unused. destruct (base buf) as [b|].
  - eexists. split; [reflexivity|]. repeat split; cbn; auto; counts.
  - exists p. split; [reflexivity|apply inbound_only_refl].
Qed.

(** The first [i_close] on an open socket: it returns having stopped the
    reads and closed the handle, or it is stuck in [stop_read]. *)
Lemma i_close_effect status p :
  closed_ p = false ->
  exists ch_in ch_out w r,
    i_close reschedule_default status p =
      Ret tt
        (mk_pimpl true ch_in ch_out false false true (write_reqs_ p)
           (cached_bytes_ p) (cache_size p)
           ((calls p ++ [uv_read_stop]) ++ [close_handle])) \/
    i_close reschedule_default status p =
      Undefined
        (mk_pimpl true ch_in ch_out w r true
           (write_reqs_ p) (cached_bytes_ p) (cache_size p)
           (calls p ++ [uv_read_stop])).
Proof.
  intros Hc.
  unfold i_close, stop_read, i_close_handle, emit, bind, gets, modify, ret,
    undefined.
  rewrite Hc. cbn.
  destruct (writable_in_ p) eqn:Hw, (readable_out_ p) eqn:Hr,
    reschedule_default; cbn; rewrite ?Hw; cbn;
    do 4 eexists; first [left; reflexivity | right; reflexivity].
  Unshelve. all: exact false.
Qed.

Lemma read_cb_effect (nread : Z) (buf : uv_buf_t) p :
  exists p0,
    inbound_only p p0 /\
    (reached (read_cb UV_EOF uv_error_to_errno reschedule_default nread buf p)
       = p0 \/
     exists status,
       read_cb UV_EOF uv_error_to_errno reschedule_default nread buf p =
         i_close reschedule_default status p0).
Proof.
  unfold read_cb. destruct (0 <? nread).
  - unfold bind at 1, gets at 1. destruct (writable_in_ p) eqn:Hw.
    + unfold bind at 1, gets at 1.
      destruct (write _ (channel_in p)) as [ok ch1].
      unfold bind at 1, modify at 1.
      assert (Hin : inbound_only p (with_channel_in ch1 p)) by (repeat split).
      destruct ok; cbn [negb].
      * unfold bind at 1, gets at 1. cbn [channel_in with_channel_in].
        destruct (should_write ch1); cbn [negb].
        -- exists (with_channel_in ch1 p). split; [assumption|now left].
        -- eexists. split; [|left; reflexivity].
           eapply inbound_only_trans; [exact Hin|apply stop_read_inbound].
      * eexists. split; [|left; reflexivity].
        eapply inbound_only_trans; [exact Hin|apply stop_read_inbound].
    + exists p. split; [apply inbound_only_refl|now left].
  - destruct (free_unused_inbound buf p) as (p0 & Hfree & Hin).
    unfold bind. rewrite Hfree.
    exists p0. split; [assumption|].
    destruct (nread =? UV_EOF); [right; eexists; reflexivity|].
    destruct (nread <? 0); [right; eexists; reflexivity|now left].
Qed.

Lemma begin_write_effect p :
  begin_write p =
    Ret tt
      (if readable_out_ p then with_calls (calls p ++ [out_read]) p else p).
Proof.
  unfold begin_write, bind, gets, emit, modify, ret.
  now destruct (readable_out_ p).
Qed.

Lemma on_block_effect (req : nat) (block : byte_block) p :
  closed_ p = false ->
  let cached := to_size (cached_bytes_ p + block_size block) in
  let p1 :=
    with_calls (calls p ++ [uv_write req (block_size block)])
      (with_write_reqs
         (write_reqs_ p ++ [mk_write_info req block (block_size block)])
         (with_cached_bytes cached p)) in
  on_block req block p =
    Ret tt
      (if negb (cache_size p <=? cached) && readable_out_ p
       then with_calls (calls p1 ++ [out_read]) p1 else p1).
Proof.
  intros Hc. unfold on_block, bind, gets, emit, modify, ret. rewrite Hc. cbn.
  destruct (cache_size p <=? _); cbn; [reflexivity|].
  unfold begin_write, bind, gets, emit, modify, ret. cbn.
  now destruct (readable_out_ p).
Qed.

Lemma on_block_closed (req : nat) (block : byte_block) p :
  closed_ p = true -> on_block req block p = Ret tt p.
Proof. intros Hc. unfold on_block, bind, gets. now rewrite Hc. Qed.

Lemma in_flight_app (l1 l2 : list write_info) :
  in_flight (l1 ++ l2) = in_flight l1 + in_flight l2.
Proof. induction l1 as [|x l1 IH]; cbn; lia. Qed.

Lemma in_flight_delete (l0 : list write_info) (i : nat) (item : write_info) :
  l0 !! i = Some item ->
  in_flight (delete i l0) = in_flight l0 - buf_len_ item.
Proof.
  revert i. induction l0 as [|x l0 IH]; intros i Hl; [discriminate|].
  destruct i as [|i].
  - cbn in *. injection Hl as ->. lia.
  - change (delete (S i) (x :: l0)) with (x :: delete i l0).
    cbn [in_flight]. rewrite (IH i Hl). lia.
Qed.

Lemma reached_drive_cons a l p :
  reached (drive UV_EOF uv_error_to_errno reschedule_default (a :: l) p) =
    match act UV_EOF uv_error_to_errno reschedule_default a p with
    | Ret _ p1 =>
        reached (drive UV_EOF uv_error_to_errno reschedule_default l p1)
    | Undefined p1 => p1
    end.
Proof.
  cbn [drive]. unfold bind.
  now destruct (act UV_EOF uv_error_to_errno reschedule_default a p).
Qed.


Lemma outbound_kept_refl p : outbound_kept p p.
Proof. repeat split; auto. Qed.

Lemma outbound_kept_trans p p0 p1 :
  outbound_kept p p0 -> outbound_kept p0 p1 -> outbound_kept p p1.
Proof.
  unfold outbound_kept. intros (A1&A2&A3&A4&A5&A6) (B1&B2&B3&B4&B5&B6).
  repeat split; try congruence. auto.
Qed.

Lemma inbound_only_outbound_kept p p0 :
  inbound_only p p0 -> outbound_kept p p0.
Proof.
  unfold inbound_only, outbound_kept.
  intros (A1&A2&A3&A4&A5&A6&A7&A8&A9). repeat split; congruence.
Qed.

(** What [i_close] does to the books: nothing when the socket is closed
    already; else the socket is closed, and the handle too if the call
    returns. *)
Lemma i_close_frame status p :
  (closed_ p = true /\ i_close reschedule_default status p = Ret tt p) \/
  (closed_ p = false /\
   exists p', outbound_kept p p' /\ closed_ p' = true /\
     ((i_close reschedule_default status p = Ret tt p' /\
       readable_out_ p' = false /\
       calls p' = (calls p ++ [uv_read_stop]) ++ [close_handle]) \/
      (i_close reschedule_default status p = Undefined p' /\
       closes (calls p') = closes (calls p)))).
Proof.
  destruct (closed_ p) eqn:Hc.
  - left. split; [reflexivity|]. now apply i_close_when_closed.
  - right. split; [reflexivity|].
    destruct (i_close_effect status p Hc) as (ch_in & ch_out & w & r & [He|He]);
      rewrite He.
    + refine (ex_intro _ _ (conj _ (conj _ (or_introl (conj eq_refl _))))).
      * repeat split; cbn; auto; counts.
      * reflexivity.
      * split; reflexivity.
    + refine (ex_intro _ _ (conj _ (conj _ (or_intror (conj eq_refl _))))).
      * repeat split; cbn; auto; counts.
      * reflexivity.
      * cbn. counts.
Qed.

Lemma i_close_outbound_kept status p :
  outbound_kept p (reached (i_close reschedule_default status p)).
Proof.
  destruct (i_close_frame status p)
    as [[_ He]|[_ (p' & Hk & _ & [[He _]|[He _]])]];
    rewrite He; cbn; auto using outbound_kept_refl.
Qed.

Lemma read_cb_outbound_kept (nread : Z) (buf : uv_buf_t) p :
  outbound_kept p
    (reached (read_cb UV_EOF uv_error_to_errno reschedule_default nread buf p)).
Proof.
  destruct (read_cb_effect nread buf p) as (p0 & Hin & [He|[status He]]).
  - rewrite He. now apply inbound_only_outbound_kept.
  - rewrite He. eapply outbound_kept_trans;
      [apply inbound_only_outbound_kept; exact Hin|apply i_close_outbound_kept].
Qed.

Lemma accounted_kept p p0 : outbound_kept p p0 -> accounted p -> accounted p0.
Proof.
  unfold accounted. intros (A1&A2&_) Ha. now rewrite A1, A2.
Qed.

Lemma reached_read_again_unknown (req : nat) (status : Z) p :
  find_if req (write_reqs_ p) = None ->
  reached (read_again reschedule_default req status p) =
    reached (i_close reschedule_default None
               (with_calls (calls p ++ [cerr_remove_this_check]) p)) /\
  exists p1, read_again reschedule_default req status p = Undefined p1.
Proof.
  intros Hf. rewrite (read_again_unknown reschedule_default req status p Hf).
  destruct (i_close _ _ _) as [[] p1|p1]; cbn; eauto.
Qed.

Lemma accounted_act a p :
  accounted p ->
  completions_known UV_EOF uv_error_to_errno reschedule_default [a] p = true ->
  accounted (reached (act UV_EOF uv_error_to_errno reschedule_default a p)).
Proof.
  intros Ha Hknown. cbn [completions_known] in Hknown.
  apply andb_true_iff in Hknown as [Hknown _].
  destruct a as [nread buf|req block|req status|status| | |b];
    cbn [act].
  - eapply accounted_kept; [apply read_cb_outbound_kept|assumption].
  - destruct (closed_ p) eqn:Hc.
    + now rewrite on_block_closed.
    + rewrite on_block_effect by assumption. cbn [reached].
      assert (Hp1 : forall cs : list call,
                 accounted
                   (with_calls cs
                      (with_write_reqs
                         (write_reqs_ p ++
                          [mk_write_info req block (block_size block)])
                         (with_cached_bytes
                            (to_size (cached_bytes_ p + block_size block))
                            p)))).
      { intros cs. unfold accounted in *. cbn.
        rewrite in_flight_app. cbn. rewrite Ha. unfold to_size.
        rewrite Z.add_0_r. apply Zplus_mod_idemp_l. }
      destruct (_ && _); apply Hp1.
  - destruct (find_if req (write_reqs_ p)) as [i|] eqn:Hf.
    + destruct (find_if_lookup req _ i Hf) as (item & Hl & _).
      rewrite (read_again_known reschedule_default req status p i item Hf Hl).
      set (p1 := with_cached_bytes _ _).
      assert (Hp1 : accounted p1).
      { subst p1. unfold accounted in *. cbn.
        rewrite (in_flight_delete _ i item Hl), Ha. unfold to_size.
        apply Zminus_mod_idemp_l. }
      destruct (status =? 0).
      * destruct (_ && _); [|exact Hp1].
        rewrite begin_write_effect. cbn [reached].
        destruct (readable_out_ p1); [|exact Hp1]. exact Hp1.
      * eapply accounted_kept; [apply i_close_outbound_kept|exact Hp1].
    + discriminate.
  - eapply accounted_kept; [apply i_close_outbound_kept|assumption].
  - rewrite begin_write_effect. cbn [reached].
    destruct (readable_out_ p); exact Ha.
  - exact Ha.
  - eapply accounted_kept;
      [apply inbound_only_outbound_kept, stop_read_inbound|assumption].
Qed.

Lemma completions_known_cons a l p :
  completions_known UV_EOF uv_error_to_errno reschedule_default (a :: l) p
    = true ->
  completions_known UV_EOF uv_error_to_errno reschedule_default [a] p = true /\
  (forall p1,
     act UV_EOF uv_error_to_errno reschedule_default a p = Ret tt p1 ->
     completions_known UV_EOF uv_error_to_errno reschedule_default l p1
       = true).
Proof.
  cbn [completions_known]. intros Hk.
  apply andb_true_iff in Hk as [Hhere Hrest].
  rewrite Hhere. split.
  - now destruct (act _ _ _ a p).
  - intros p1 Hp1. now rewrite Hp1 in Hrest.
Qed.

(** X10.  As long as libuv completes only writes that are in flight, so
    that every completion finds its request in [write_reqs_],
    [cached_bytes_] is the total of the lengths recorded in [write_reqs_],
    as a [std::size_t] counts it, whatever else the socket goes
    through. *)
Theorem cached_bytes_counts_what_is_in_flight l p
    (Hbooks : accounted p)
    (Hknown :
       completions_known UV_EOF uv_error_to_errno reschedule_default l p
         = true) :
  accounted (reached (drive UV_EOF uv_error_to_errno reschedule_default l p)).
Proof.
  revert p Hbooks Hknown.
  induction l as [|a l IH]; intros p Ha Hk; [exact Ha|].
  destruct (completions_known_cons a l p Hk) as [Hhere Hrest].
  rewrite reached_drive_cons.
  pose proof (accounted_act a p Ha Hhere) as Hact.
  destruct (act _ _ _ a p) as [[] p1|p1] eqn:Hact1; cbn [reached] in Hact;
    [|exact Hact].
  apply IH; [exact Hact|]. now apply Hrest.
Qed.

(** ** The handle is closed once *)

Lemma act_closes a p :
  let r := act UV_EOF uv_error_to_errno reschedule_default a p in
  (closed_ (reached r) = closed_ p /\
   closes (calls (reached r)) = closes (calls p)) \/
  (closed_ p = false /\ closed_ (reached r) = true /\
   (closes (calls (reached r)) = S (closes (calls p)) \/
    (exists p1, r = Undefined p1) /\
    closes (calls (reached r)) = closes (calls p))).
Proof.
  assert (Hclose : forall status p0,
    (closed_ (reached (i_close reschedule_default status p0)) = closed_ p0 /\
     closes (calls (reached (i_close reschedule_default status p0))) =
       closes (calls p0)) \/
    (closed_ p0 = false /\
     closed_ (reached (i_close reschedule_default status p0)) = true /\
     (closes (calls (reached (i_close reschedule_default status p0))) =
        S (closes (calls p0)) \/
      (exists p1, i_close reschedule_default status p0 = Undefined p1) /\
      closes (calls (reached (i_close reschedule_default status p0))) =
        closes (calls p0)))).
  { intros status p0.
    destruct (i_close_frame status p0)
      as [[Hc He]|[Hc (p' & Hk & Hc' & [(He & _ & Hcalls)|[He Hn]])]];
      rewrite He; cbn [reached].
    - left. auto.
    - right. split; [assumption|]. split; [assumption|]. left.
      rewrite Hcalls. counts.
    - right. split; [assumption|]. split; [assumption|]. right. eauto. }
  cbv zeta. destruct a as [nread buf|req block|req status|status| | |b];
    cbn [act].
  - destruct (read_cb_effect nread buf p)
      as (p0 & (Hc0 & _ & _ & _ & _ & _ & Hn0 & _) & [He|[status He]]).
    + rewrite He. left. auto.
    + rewrite He. rewrite <- Hc0, <- Hn0. apply Hclose.
  - destruct (closed_ p) eqn:Hc.
    + rewrite on_block_closed by assumption. left. auto.
    + rewrite on_block_effect by assumption. cbn [reached]. left.
      destruct (_ && _); cbn; split; auto; counts.
  - destruct (find_if req (write_reqs_ p)) as [i|] eqn:Hf.
    + destruct (find_if_lookup req _ i Hf) as (item & Hl & _).
      rewrite (read_again_known reschedule_default req status p i item Hf Hl).
      set (p1 := with_cached_bytes _ _).
      change (closed_ p) with (closed_ p1).
      change (calls p) with (calls p1).
      destruct (status =? 0); [|apply Hclose].
      left. destruct (_ && _); [|auto].
      rewrite begin_write_effect. cbn [reached].
      destruct (readable_out_ p1); cbn; split; auto; counts.
    + rewrite (read_again_unknown reschedule_default req status p Hf).
      set (p0 := with_calls _ p).
      assert (Hp0 : closed_ p0 = closed_ p /\
                    closes (calls p0) = closes (calls p)).
      { subst p0. cbn. split; [reflexivity|counts]. }
      destruct Hp0 as [Hc0 Hn0]. rewrite <- Hc0, <- Hn0.
      specialize (Hclose None p0).
      destruct (i_close reschedule_default None p0) as [[] p1|p1];
        cbn [reached] in *.
      * destruct Hclose as [Hsame|(Hc & Hc' & [Hs|[[p2 Hp2] _]])];
          [left; assumption| |discriminate].
        right. auto.
      * destruct Hclose as [Hsame|(Hc & Hc' & [Hs|[_ Hs]])];
          [left; assumption| |].
        -- right. auto.
        -- right. split; [assumption|]. split; [assumption|]. right. eauto.
  - apply Hclose.
  - rewrite begin_write_effect. cbn [reached]. left.
    destruct (readable_out_ p); cbn; split; auto; counts.
  - left. cbn. split; auto; counts.
  - destruct (stop_read_inbound b p) as (Hc0 & _ & _ & _ & _ & _ & Hn0 & _).
    left. auto.
Qed.

Lemma drive_cons_ret a l p p' :
  drive UV_EOF uv_error_to_errno reschedule_default (a :: l) p = Ret tt p' ->
  exists p1,
    act UV_EOF uv_error_to_errno reschedule_default a p = Ret tt p1 /\
    drive UV_EOF uv_error_to_errno reschedule_default l p1 = Ret tt p'.
Proof.
  cbn [drive]. unfold bind.
  destruct (act _ _ _ a p) as [[] p1|p1]; [eauto|discriminate].
Qed.

(** X11.  The handle is closed once.  From a state in which the handle
    has been closed exactly if [closed_] is set, no history of callbacks
    makes more than one [close_handle] call in all, and after every
    history that returns the handle has been closed exactly if [closed_]
    is set. *)
Theorem handle_is_closed_once l p (Honce : closed_once p) :
  (closes
     (calls (reached (drive UV_EOF uv_error_to_errno reschedule_default l p)))
   <= 1)%nat /\
  (forall p',
     drive UV_EOF uv_error_to_errno reschedule_default l p = Ret tt p' ->
     closed_once p').
Proof.
  split.
  - assert (Hweak : (closes (calls p) <= if closed_ p then 1 else 0)%nat).
    { unfold closed_once in Honce. rewrite Honce. lia. }
    clear Honce.
    assert (Hgoal :
      (closes
         (calls
            (reached (drive UV_EOF uv_error_to_errno reschedule_default l p)))
       <= if closed_
               (reached
                  (drive UV_EOF uv_error_to_errno reschedule_default l p))
          then 1 else 0)%nat).
    { revert p Hweak. induction l as [|a l IH]; intros p Hweak; [exact Hweak|].
      rewrite reached_drive_cons.
      pose proof (act_closes a p) as Hact. cbv zeta in Hact.
      destruct (act _ _ _ a p) as [[] p1|p1]; cbn [reached] in *.
      - apply IH.
        destruct Hact as [[E1 E2]|(Hc & Hc' & [E|[_ E]])];
          rewrite ?E1, ?E2, ?Hc', ?E; try rewrite Hc in Hweak;
          try assumption; lia.
      - destruct Hact as [[E1 E2]|(Hc & Hc' & [E|[_ E]])];
          rewrite ?E1, ?E2, ?Hc', ?E; try rewrite Hc in Hweak;
          try assumption; lia. }
    destruct (closed_ _) in Hgoal; lia.
  - revert p Honce. induction l as [|a l IH]; intros p Honce p' Hd.
    + cbn in Hd. injection Hd as <-. exact Honce.
    + destruct (drive_cons_ret a l p p' Hd) as (p1 & Ha & Hl).
      apply (IH p1); [|exact Hl].
      pose proof (act_closes a p) as Hact. cbv zeta in Hact.
      rewrite Ha in Hact. cbn [reached] in Hact. unfold closed_once in *.
      destruct Hact as [[E1 E2]|(Hc & Hc' & [E|[[p2 Hp2] _]])];
        [now rewrite E1, E2
        |rewrite Hc', E, Honce, Hc; reflexivity
        |discriminate].
Qed.


(** ** The budget of the outbound path *)

Lemma in_flight_nonneg (l0 : list write_info) :
  Forall (fun item => 0 <= buf_len_ item) l0 -> 0 <= in_flight l0.
Proof. induction 1; cbn; lia. Qed.

Lemma to_size_small (z : Z) : 0 <= z < size_modulus -> to_size z = z.
Proof. intros Hz. unfold to_size. now apply Z.mod_small. Qed.

Lemma within_budget_kept (m : Z) p p0 :
  outbound_kept p p0 -> within_budget m p -> within_budget m p0.
Proof.
  unfold within_budget, outbound_kept, outstanding_reads.
  intros (A1&A2&A3&A4&A5&A6) (B1&B2&B3&B4&B5&B6).
  rewrite A1, A2, A3, A4, A5.
  do 5 (split; [assumption|]).
  intros Hc0. apply B6. destruct (closed_ p); [|reflexivity].
  rewrite A6 in Hc0 by reflexivity. discriminate.
Qed.

Lemma within_budget_act (m : Z) a p :
  within_budget m p ->
  fed UV_EOF uv_error_to_errno reschedule_default m [a] p = true ->
  within_budget m
    (reached (act UV_EOF uv_error_to_errno reschedule_default a p)).
Proof.
  intros Hb Hfed. cbn [fed] in Hfed. apply andb_true_iff in Hfed as [Hfed _].
  destruct a as [nread buf|req block|req status|status| | |b]; cbn [act].
  - eapply within_budget_kept; [apply read_cb_outbound_kept|assumption].
  - destruct (closed_ p) eqn:Hc.
    + now rewrite on_block_closed.
    + rewrite on_block_effect by assumption. cbn [reached].
      cbn [orb] in Hfed.
      apply andb_true_iff in Hfed as [Hfed Hmax].
      apply andb_true_iff in Hfed as [Hout Hmin].
      apply Z.ltb_lt in Hout. apply Z.leb_le in Hmin, Hmax.
      destruct Hb as (B1&B2&B3&B4&B5&B6). destruct (B6 Hc) as [Hone Hlow].
      specialize (Hlow Hout). unfold outstanding_reads in Hout, Hone.
      pose proof (in_flight_nonneg _ B3) as Hnn. rewrite <- B4 in Hnn.
      rewrite to_size_small by lia.
      destruct (Z.leb_spec (cache_size p) (cached_bytes_ p + block_size block))
        as [Hfull|Hroom]; cbn [negb andb];
        [|destruct (readable_out_ p)];
        unfold within_budget, outstanding_reads; cbn;
        rewrite ?reads_asked_app, ?writes_submitted_app, in_flight_app; cbn;
        (repeat split; try lia;
         try (apply Forall_app; split; [assumption|];
              constructor; [assumption|constructor])).
  - destruct (find_if req (write_reqs_ p)) as [i|] eqn:Hf; [|discriminate].
    destruct (find_if_lookup req _ i Hf) as (item & Hl & _).
    rewrite (read_again_known reschedule_default req status p i item Hf Hl).
    destruct Hb as (B1&B2&B3&B4&B5&B6).
    pose proof (in_flight_delete _ i item Hl) as Hdel.
    assert (Hitem : 0 <= buf_len_ item).
    { rewrite Forall_forall in B3. apply B3.
      eapply list_elem_of_lookup_2. exact Hl. }
    assert (B3' : Forall (fun item => 0 <= buf_len_ item)
                    (delete i (write_reqs_ p))).
    { now apply Forall_delete. }
    pose proof (in_flight_nonneg _ B3') as Hnn'.
    assert (Hsmall : to_size (cached_bytes_ p - buf_len_ item) =
                     cached_bytes_ p - buf_len_ item).
    { apply to_size_small. lia. }
    set (p1 := with_cached_bytes _ _).
    assert (Hp1 : within_budget m p1).
    { subst p1. unfold within_budget, outstanding_reads in *. cbn.
      rewrite Hsmall.
      do 3 (split; [assumption|]). split; [lia|]. split; [lia|].
      intros Hc. destruct (B6 Hc) as [Hone Hlow].
      split; [exact Hone|]. intros Hout. specialize (Hlow Hout). lia. }
    destruct (status =? 0);
      [|eapply within_budget_kept; [apply i_close_outbound_kept|exact Hp1]].
    destruct (Z.leb_spec (cache_size p) (cached_bytes_ p)) as [Hwas|Hwas];
      cbn [andb]; [|exact Hp1].
    destruct (Z.ltb_spec (cached_bytes_ p1) (cache_size p)) as [Hnow|Hnow];
      [|exact Hp1].
    rewrite begin_write_effect. cbn [reached].
    destruct (readable_out_ p1); [|exact Hp1].
    subst p1. unfold within_budget, outstanding_reads in *. cbn in *.
    rewrite Hsmall in *. rewrite reads_asked_app, writes_submitted_app. cbn.
    do 3 (split; [assumption|]). split; [lia|]. split; [lia|].
    intros Hc. destruct (B6 Hc) as [Hone Hlow]. lia.
  - eapply within_budget_kept; [apply i_close_outbound_kept|assumption].
  - discriminate.
  - eapply within_budget_kept;
      [apply inbound_only_outbound_kept, start_read_inbound|assumption].
  - eapply within_budget_kept;
      [apply inbound_only_outbound_kept, stop_read_inbound|assumption].
Qed.

Lemma fed_cons (m : Z) a l p :
  fed UV_EOF uv_error_to_errno reschedule_default m (a :: l) p = true ->
  fed UV_EOF uv_error_to_errno reschedule_default m [a] p = true /\
  (forall p1,
     act UV_EOF uv_error_to_errno reschedule_default a p = Ret tt p1 ->
     fed UV_EOF uv_error_to_errno reschedule_default m l p1 = true).
Proof.
  cbn [fed]. intros Hf. apply andb_true_iff in Hf as [Hhere Hrest].
  rewrite Hhere. split.
  - now destruct (act _ _ _ a p).
  - intros p1 Hp1. now rewrite Hp1 in Hrest.
Qed.

(** X12.  The outbound path keeps within its budget.  When blocks of at
    most [m] bytes arrive only for reads that are outstanding and only
    submitted writes complete, [cached_bytes_] is exactly the number of
    bytes in flight and stays below [cache_size] plus [m]. *)
Theorem outbound_bytes_stay_within_budget (m : Z) l p
    (Hbudget : within_budget m p)
    (Hfed : fed UV_EOF uv_error_to_errno reschedule_default m l p = true) :
  let p' := reached (drive UV_EOF uv_error_to_errno reschedule_default l p) in
  within_budget m p' /\
  cached_bytes_ p' = in_flight (write_reqs_ p') /\
  0 <= cached_bytes_ p' < cache_size p' + m.
Proof.
  cbv zeta.
  assert (Hgoal : within_budget m
            (reached (drive UV_EOF uv_error_to_errno reschedule_default l p))).
  { revert p Hbudget Hfed.
    induction l as [|a l IH]; intros p Hb Hf; [exact Hb|].
    destruct (fed_cons m a l p Hf) as [Hhere Hrest].
    rewrite reached_drive_cons.
    pose proof (within_budget_act m a p Hb Hhere) as Hact.
    destruct (act _ _ _ a p) as [[] p1|p1] eqn:Ha; cbn [reached] in Hact;
      [|exact Hact].
    apply IH; [exact Hact|]. now apply Hrest. }
  split; [exact Hgoal|].
  destruct Hgoal as (B1&B2&B3&B4&B5&B6).
  split; [exact B4|]. split; [|exact B5].
  rewrite B4. now apply in_flight_nonneg.
Qed.

(** ** After the close *)

(** X14.  After the first [i_close] has returned: reads were stopped and
    then the handle closed, the requests in flight are all still
    recorded, a block that arrives is dropped, [begin_write] asks for
    nothing, and the completion of a request in flight only takes it off
    the books, without a call to the outside. *)
Theorem after_close_the_outbound_path_is_inert status p p1
    (Hopen : closed_ p = false)
    (Hclose : i_close reschedule_default status p = Ret tt p1) :
  calls p1 = calls p ++ [uv_read_stop; close_handle] /\
  write_reqs_ p1 = write_reqs_ p /\
  cached_bytes_ p1 = cached_bytes_ p /\
  (forall req block, on_block req block p1 = Ret tt p1) /\
  begin_write p1 = Ret tt p1 /\
  (forall req st i item,
     find_if req (write_reqs_ p1) = Some i ->
     write_reqs_ p1 !! i = Some item ->
     read_again reschedule_default req st p1 =
       Ret tt
         (with_cached_bytes (to_size (cached_bytes_ p1 - buf_len_ item))
            (with_write_reqs (delete i (write_reqs_ p1)) p1))).
Proof.
  destruct (i_close_frame status p)
    as [[Hc _]|[_ (p' & Hk & Hc' & [(He & Hr & Hcalls)|[He _]])]];
    [congruence| |congruence].
  assert (p' = p1) by congruence. subst p'.
  destruct Hk as (K1 & K2 & _).
  split; [now rewrite Hcalls, <- app_assoc|].
  split; [assumption|]. split; [assumption|].
  split; [intros req block; now apply on_block_closed|].
  split; [rewrite begin_write_effect; now rewrite Hr|].
  intros req st i item Hf Hl.
  rewrite (read_again_known reschedule_default req st p1 i item Hf Hl).
  set (p2 := with_cached_bytes _ _).
  assert (Hr2 : readable_out_ p2 = false) by exact Hr.
  assert (Hc2 : closed_ p2 = true) by exact Hc'.
  destruct (st =? 0).
  - destruct (_ && _); [|reflexivity].
    rewrite begin_write_effect. now rewrite Hr2.
  - now apply i_close_when_closed.
Qed.


(** ** The pump does not stall *)






End SocketHistories.

(** * Handles and owners *)

Section ChannelHandles.

Import Channel.

Context {V : Type}.

Implicit Types (c : shared_channel V) (obj : channel_object V).
Implicit Types (hs : list (handle_op V)).

(** A side without handles has closed the channel. *)
Lemma handle_step_orphans h obj :
  (readable_copies obj = O -> closed_ (shared_channel_ obj) = true) ->
  (writable_copies obj = O -> closed_ (shared_channel_ obj) = true) ->
  let obj' := fst (handle_step h obj) in
  (readable_copies obj' = O -> closed_ (shared_channel_ obj') = true) /\
  (writable_copies obj' = O -> closed_ (shared_channel_ obj') = true).
Proof.
  intros Hr Hw. destruct h as [o| | | |]; cbn [handle_step].
  - destruct (callable o obj); [|cbn; auto].
    destruct (step o (shared_channel_ obj)) as [c1 evs] eqn:Hstep.
    cbn. assert (Hc1 : c1 = fst (step o (shared_channel_ obj)))
      by now rewrite Hstep.
    split; intros H0; subst c1;
      apply (step_after_close o (shared_channel_ obj)); auto.
  - destruct (readable_copies obj) eqn:Hn; cbn; [rewrite Hn; auto|].
    split; [discriminate|assumption].
  - destruct (writable_copies obj) eqn:Hn; cbn; [rewrite Hn; auto|].
    split; [assumption|discriminate].
  - unfold drop_copy. destruct (readable_copies obj) as [|[|n]] eqn:Hn; cbn.
    + auto.
    + auto.
    + split; [discriminate|assumption].
  - unfold drop_copy. destruct (writable_copies obj) as [|[|n]] eqn:Hn; cbn.
    + auto.
    + auto.
    + split; [assumption|discriminate].
Qed.

Lemma handle_run_cons h hs obj :
  handle_run (h :: hs) obj =
    (fst (handle_run hs (fst (handle_step h obj))),
     snd (handle_step h obj) ++ snd (handle_run hs (fst (handle_step h obj)))).
Proof.
  cbn [handle_run]. destruct (handle_step h obj) as [obj1 evs]. cbn.
  now destruct (handle_run hs obj1).
Qed.

(** X15.  A channel one side of which has no handle left is closed: once
    the last copy of the readable, or of the writable, is gone, the owner
    of that side has closed the channel, [should_send] is false and every
    [send] throws without changing anything. *)
Theorem channel_without_a_side_is_closed
    (buffer_count resume_count : Z) hs (t : V) :
  let obj := fst (handle_run hs (make_channel buffer_count resume_count)) in
  readable_copies obj = O \/ writable_copies obj = O ->
  closed_ (shared_channel_ obj) = true /\
  should_send (shared_channel_ obj) = false /\
  send t (shared_channel_ obj) =
    (Thrown channel_closed_exception, shared_channel_ obj, []).
Proof.
  cbv zeta.
  assert (Hinv : forall obj,
    (readable_copies obj = O -> closed_ (shared_channel_ obj) = true) ->
    (writable_copies obj = O -> closed_ (shared_channel_ obj) = true) ->
    (readable_copies (fst (handle_run hs obj)) = O ->
     closed_ (shared_channel_ (fst (handle_run hs obj))) = true) /\
    (writable_copies (fst (handle_run hs obj)) = O ->
     closed_ (shared_channel_ (fst (handle_run hs obj))) = true)).
  { induction hs as [|h hs IH]; intros obj Hr Hw; [cbn; auto|].
    rewrite handle_run_cons. cbn [fst].
    destruct (handle_step_orphans h obj Hr Hw) as [Hr1 Hw1].
    now apply IH. }
  destruct (Hinv (make_channel buffer_count resume_count))
    as [Hr Hw]; [discriminate|discriminate|].
  intros Hgone.
  assert (Hc : closed_
                 (shared_channel_
                    (fst (handle_run hs
                            (make_channel buffer_count resume_count)))) = true).
  { destruct Hgone; auto. }
  split; [exact Hc|]. split.
  - unfold should_send. now rewrite Hc, andb_false_r.
  - now apply send_closed.
Qed.

End ChannelHandles.

(** ** Reads *)

Section SocketReads.

Import TcpSocket.

Context {chan : Type} `{Endpoints chan}.

Variable UV_EOF : Z.
Variable uv_error_to_errno : Z -> Z.
Variable reschedule_default : bool.

Implicit Types (p : pimpl (chan := chan)) (status : option io_exception).

Lemma deletes_app (l1 l2 : list call) :
  deletes (l1 ++ l2) = (deletes l1 + deletes l2)%nat.
Proof. induction l1 as [|[] l1 IH]; cbn; auto. Qed.

Lemma stop_read_reached (reschedule : bool) p :
  closed_ (reached (stop_read reschedule p)) = closed_ p /\
  deletes (calls (reached (stop_read reschedule p))) = deletes (calls p).
Proof.
  unfold stop_read, bind, emit, modify, gets, ret, undefined. cbn.
  destruct reschedule; cbn; [destruct (writable_in_ p); cbn|];
    rewrite deletes_app; cbn; split; auto; lia.
Qed.

Lemma i_close_reached status p :
  closed_ (reached (i_close reschedule_default status p)) = true /\
  deletes (calls (reached (i_close reschedule_default status p))) =
    deletes (calls p).
Proof.
  destruct (closed_ p) eqn:Hc.
  - rewrite (i_close_when_closed reschedule_default status p Hc). auto.
  - destruct (i_close_effect reschedule_default status p Hc)
      as (ch_in & ch_out & w & r & [He|He]); rewrite He; cbn;
      rewrite !deletes_app; cbn; split; auto; lia.
Qed.

(** X16.  The read callback closes the socket exactly when the byte
    count is negative (an error, or [UV_EOF]), and gives the buffer back
    exactly when it does not pass it on: once, if there is one, for a
    count that is not positive, and never for data. *)
Theorem read_cb_frees_and_closes (nread : Z) (buf : uv_buf_t) p
    (Heof : UV_EOF < 0) :
  let p' :=
    reached (read_cb UV_EOF uv_error_to_errno reschedule_default nread buf p) in
  closed_ p' = closed_ p || (nread <? 0) /\
  deletes (calls p') =
    (deletes (calls p) +
     if (0 <? nread)%Z then 0
     else match base buf with Some _ => 1 | None => 0 end)%nat.
Proof.
  cbv zeta.
  remember (reached (read_cb UV_EOF uv_error_to_errno reschedule_default
                       nread buf p)) as p' eqn:Hp'.
  unfold read_cb in Hp'.
  destruct (Z.ltb_spec 0 nread) as [Hpos|Hnon].
  - replace (nread <? 0) with false by (symmetry; apply Z.ltb_ge; lia).
    rewrite orb_false_r, Nat.add_0_r.
    unfold bind at 1, gets at 1 in Hp'.
    destruct (writable_in_ p); [|subst p'; cbn; auto].
    unfold bind at 1, gets at 1 in Hp'.
    destruct (write _ (channel_in p)) as [ok ch1].
    unfold bind at 1, modify at 1 in Hp'.
    destruct ok; cbn [negb] in Hp'.
    + unfold bind at 1, gets at 1 in Hp'.
      cbn [channel_in with_channel_in] in Hp'.
      destruct (should_write ch1); cbn [negb] in Hp'; subst p';
        [cbn; auto|].
      apply (stop_read_reached true (with_channel_in ch1 p)).
    + subst p'. apply (stop_read_reached false (with_channel_in ch1 p)).
  - unfold bind at 1 in Hp'.
    assert (Hfree : exists p0,
              free_unused buf p = Ret tt p0 /\ closed_ p0 = closed_ p /\
              deletes (calls p0) =
                (deletes (calls p) +
                 match base buf with Some _ => 1 | None => 0 end)%nat).
    { unfold free_unused. destruct (base buf) as [b|].
      - eexists. split; [reflexivity|]. cbn. rewrite deletes_app. cbn. auto.
      - exists p. cbn. split; [reflexivity|]. split; [reflexivity|lia]. }
    destruct Hfree as (p0 & Hfree & Hc0 & Hd0). rewrite Hfree in Hp'.
    destruct (Z.eqb_spec nread UV_EOF) as [Heq|Hne].
    + subst nread p'.
      replace (UV_EOF <? 0) with true by (symmetry; apply Z.ltb_lt; lia).
      rewrite orb_true_r, <- Hd0. apply i_close_reached.
    + destruct (Z.ltb_spec nread 0) as [Hneg|Hzero]; subst p'.
      * rewrite orb_true_r, <- Hd0. apply i_close_reached.
      * rewrite orb_false_r. cbn. auto.
Qed.

End SocketReads.

(** * The properties above at work *)

Lemma values_come_out_in_send_order_witness :
  let c := fst (Channel.run [Channel.Send 1%nat] (Channel.channel 4 3)) in
  Channel.closed_ c = false /\
  Channel.waiters_ c = [] /\
  fst (Channel.receive_n 3
         (fst (Channel.run (map Channel.Send [2; 3]%nat) c))) =
    [Some (Channel.Value 1%nat); Some (Channel.Value 2%nat);
     Some (Channel.Value 3%nat)].
Proof.
  split; [reflexivity|]. split; [reflexivity|].
  exact (proj1 (proj2
    (values_come_out_in_send_order [2; 3]%nat
       (fst (Channel.run [Channel.Send 1%nat] (Channel.channel 4 3)))
       eq_refl eq_refl))).
Defined.

Lemma settled_promise_never_changes_witness :
  let c := fst (Channel.run [Channel.Receive; Channel.Send 5%nat]
                  (Channel.channel 4 3)) in
  Channel.defers c !! 0%nat = Some (Channel.Value 5%nat) /\
  Channel.defers
    (fst (Channel.run [Channel.Close; Channel.Receive; Channel.Send 6%nat] c))
    !! 0%nat = Some (Channel.Value 5%nat).
Proof.
  split; [reflexivity|].
  apply (settled_promise_never_changes 4 3
           [Channel.Receive; Channel.Send 5%nat]
           [Channel.Close; Channel.Receive; Channel.Send 6%nat]);
    [reflexivity|discriminate].
Defined.

Lemma pending_promises_are_the_waiters_witness :
  let c := fst (Channel.run [Channel.Receive; Channel.Receive;
                             Channel.Send 1%nat]
                  (Channel.channel 4 3)) in
  let c' := fst (Channel.run [Channel.Receive; Channel.Close]
                   (@Channel.channel nat 4 3)) in
  In 1%nat (Channel.waiters_ c) /\
  Channel.defers c !! 1%nat = Some Channel.Empty /\
  Channel.closed_ c' = true /\
  Channel.defers c' !! 0%nat <> Some Channel.Empty.
Proof.
  split; [cbn; auto|].
  split.
  - apply (proj1 (pending_promises_are_the_waiters 4 3
                    [Channel.Receive; Channel.Receive; Channel.Send 1%nat]
                    1%nat)).
    cbn. auto.
  - split; [reflexivity|].
    apply (proj2 (pending_promises_are_the_waiters 4 3
                    [Channel.Receive; Channel.Close] 0%nat)).
    reflexivity.
Defined.

Lemma closed_channel_keeps_no_waiter_no_scope_witness :
  let c := fst (Channel.run [Channel.AddScope 1%nat; Channel.Receive;
                             Channel.Close; Channel.AddScope 2%nat;
                             Channel.Receive]
                  (@Channel.channel nat 4 3)) in
  Channel.closed_ c = true /\
  Channel.waiters_ c = [] /\
  Channel.scopes_ c = [].
Proof.
  split; [reflexivity|].
  apply (closed_channel_keeps_no_waiter_no_scope 4 3
           [Channel.AddScope 1%nat; Channel.Receive; Channel.Close;
            Channel.AddScope 2%nat; Channel.Receive]).
  reflexivity.
Defined.

Lemma closed_channel_takes_nothing_in_witness :
  let c := fst (Channel.run [Channel.Send 5%nat; Channel.Send 6%nat;
                             Channel.Close]
                  (Channel.channel 4 3)) in
  let ops := [Channel.Send 9%nat; Channel.Receive; Channel.Send 10%nat] in
  Channel.closed_ c = true /\
  Channel.accepted ops c = [] /\
  Channel.queue_ (fst (Channel.run ops c)) = [6%nat].
Proof.
  split; [reflexivity|].
  pose proof (closed_channel_takes_nothing_in
                (fst (Channel.run [Channel.Send 5%nat; Channel.Send 6%nat;
                                   Channel.Close]
                        (Channel.channel 4 3)))
                [Channel.Send 9%nat; Channel.Receive; Channel.Send 10%nat]
                eq_refl) as (_ & _ & Hnone & Hqueue).
  split; [exact Hnone|exact Hqueue].
Defined.

Lemma drained_paused_channel_has_resume_pending_witness :
  let c := fst (Channel.run [Channel.Send 1%nat; Channel.Send 2%nat;
                             Channel.Receive; Channel.Receive]
                  (Channel.channel 1 1)) in
  Channel.paused_ c = true /\
  size (Channel.queue_ c) < Channel.resume_count_ c /\
  (0 < Channel.default_queue_ c)%nat.
Proof.
  split; [reflexivity|]. split; [reflexivity|].
  apply (drained_paused_channel_has_resume_pending 1 1
           [Channel.Send 1%nat; Channel.Send 2%nat; Channel.Receive;
            Channel.Receive]);
    reflexivity.
Defined.

Lemma only_an_installed_hook_is_invoked_witness :
  let ops := [Channel.SetResumeNotification (Some 7%nat); Channel.Close] in
  let c := @Channel.channel nat 4 3 in
  In (Channel.Invoked Channel.ByClose 7%nat) (snd (Channel.run ops c)) /\
  (Channel.resume_notification_ c = Some 7%nat \/
   In (Channel.SetResumeNotification (Some 7%nat)) ops).
Proof.
  split; [cbn; auto|].
  apply (only_an_installed_hook_is_invoked (@Channel.channel nat 4 3)
           [Channel.SetResumeNotification (Some 7%nat); Channel.Close]
           Channel.ByClose 7%nat).
  cbn. auto.
Defined.

Lemma every_transition_notifies_witness :
  let c := Channel.set_resume_notification (Some 7%nat)
             (Channel.channel 1 1) in
  let ops := [Channel.Send 1%nat; Channel.Send 2%nat; Channel.Receive;
              Channel.Receive; Channel.RunTask] in
  Channel.transitions (snd (Channel.run ops c)) = 1%nat /\
  Channel.resume_invocations (snd (Channel.run ops c)) =
    Channel.transitions (snd (Channel.run ops c)).
Proof.
  split; [reflexivity|].
  apply (every_transition_notifies
           (Channel.set_resume_notification (Some 7%nat) (Channel.channel 1 1))
           [Channel.Send 1%nat; Channel.Send 2%nat; Channel.Receive;
            Channel.Receive; Channel.RunTask] 7%nat); [reflexivity|].
  intros g Hin. cbn in Hin.
  repeat (destruct Hin as [Hin|Hin]; [discriminate|]). exact Hin.
Defined.

Lemma cached_bytes_counts_what_is_in_flight_witness :
  let l := [TcpSocket.OnBlock 3%nat (TcpSocket.mk_byte_block 100 (Some 1%nat));
            TcpSocket.OnBlock 4%nat (TcpSocket.mk_byte_block 50 (Some 2%nat));
            TcpSocket.ReadAgain 3%nat 0] in
  let p := TcpSocket.attached 65536 in
  TcpSocket.accounted p /\
  TcpSocket.completions_known (-4095) Z.opp false l p = true /\
  TcpSocket.cached_bytes_
    (TcpSocket.reached (TcpSocket.drive (-4095) Z.opp false l p)) = 50 /\
  TcpSocket.accounted
    (TcpSocket.reached (TcpSocket.drive (-4095) Z.opp false l p)).
Proof.
  split; [reflexivity|]. split; [reflexivity|]. split; [reflexivity|].
  apply (cached_bytes_counts_what_is_in_flight (-4095) Z.opp false);
    reflexivity.
Defined.

Lemma handle_is_closed_once_witness :
  let l := [TcpSocket.IClose None; TcpSocket.ReadCb (-4095)
              (TcpSocket.mk_uv_buf None 0);
            TcpSocket.IClose (Some (TcpSocket.by_errno 104))] in
  let p := TcpSocket.attached 65536 in
  TcpSocket.closed_once p /\
  (TcpSocket.closes
     (TcpSocket.calls
        (TcpSocket.reached (TcpSocket.drive (-4095) Z.opp false l p)))
   <= 1)%nat.
Proof.
  split; [reflexivity|].
  apply (handle_is_closed_once (-4095) Z.opp false). reflexivity.
Defined.

Lemma attached_within_budget :
  TcpSocket.within_budget 4096 (TcpSocket.attached 65536).
Proof.
  unfold TcpSocket.within_budget, TcpSocket.outstanding_reads. cbn.
  split; [lia|]. split; [vm_compute; discriminate|].
  split; [constructor|]. split; [reflexivity|]. split; [lia|].
  intros _. split; [lia|]. intros _. lia.
Defined.

Lemma outbound_bytes_stay_within_budget_witness :
  let l := [TcpSocket.OnBlock 1%nat
              (TcpSocket.mk_byte_block 4096 (Some 1%nat));
            TcpSocket.OnBlock 2%nat
              (TcpSocket.mk_byte_block 100 (Some 2%nat));
            TcpSocket.ReadAgain 1%nat 0] in
  let p := TcpSocket.attached 65536 in
  TcpSocket.fed (-4095) Z.opp false 4096 l p = true /\
  0 <= TcpSocket.cached_bytes_
         (TcpSocket.reached (TcpSocket.drive (-4095) Z.opp false l p))
    < 65536 + 4096.
Proof.
  split; [reflexivity|].
  exact (proj2 (proj2
    (outbound_bytes_stay_within_budget (-4095) Z.opp false 4096
       [TcpSocket.OnBlock 1%nat (TcpSocket.mk_byte_block 4096 (Some 1%nat));
        TcpSocket.OnBlock 2%nat (TcpSocket.mk_byte_block 100 (Some 2%nat));
        TcpSocket.ReadAgain 1%nat 0]
       (TcpSocket.attached 65536) attached_within_budget eq_refl))).
Defined.


Lemma after_close_the_outbound_path_is_inert_witness :
  let p := TcpSocket.reached
             (TcpSocket.on_block 3%nat
                (TcpSocket.mk_byte_block 100 (Some 1%nat))
                (TcpSocket.attached 65536)) in
  let p1 := TcpSocket.reached (TcpSocket.i_close false None p) in
  TcpSocket.closed_ p = false /\
  TcpSocket.i_close false None p = TcpSocket.Ret tt p1 /\
  TcpSocket.write_reqs_ p1 = TcpSocket.write_reqs_ p /\
  TcpSocket.begin_write p1 = TcpSocket.Ret tt p1.
Proof.
  split; [reflexivity|]. split; [reflexivity|].
  pose proof (after_close_the_outbound_path_is_inert false None
                (TcpSocket.reached
                   (TcpSocket.on_block 3%nat
                      (TcpSocket.mk_byte_block 100 (Some 1%nat))
                      (TcpSocket.attached 65536)))
                _ eq_refl eq_refl) as (_ & Hreqs & _ & _ & Hbegin & _).
  split; [exact Hreqs|exact Hbegin].
Defined.

Lemma channel_without_a_side_is_closed_witness :
  let obj := fst (Channel.handle_run
                    [Channel.CopyWritable; Channel.Call (Channel.Send 5%nat);
                     Channel.DropReadable]
                    (Channel.make_channel 4 3)) in
  Channel.readable_copies obj = 0%nat /\
  Channel.writable_copies obj = 2%nat /\
  Channel.queue_ (Channel.shared_channel_ obj) = [5%nat] /\
  Channel.closed_ (Channel.shared_channel_ obj) = true.
Proof.
  split; [reflexivity|]. split; [reflexivity|]. split; [reflexivity|].
  apply (channel_without_a_side_is_closed 4 3
           [Channel.CopyWritable; Channel.Call (Channel.Send 5%nat);
            Channel.DropReadable] 7%nat).
  left. reflexivity.
Defined.

Lemma read_cb_frees_and_closes_witness :
  let buf := TcpSocket.mk_uv_buf (Some 1%nat) 65536 in
  let p := TcpSocket.attached 65536 in
  let p' :=
    TcpSocket.reached
      (TcpSocket.read_cb (-4095) Z.opp false (-104) buf p) in
  -4095 < 0 /\
  TcpSocket.closed_ p' = true /\
  TcpSocket.deletes (TcpSocket.calls p') = 1%nat.
Proof.
  split; [lia|].
  exact (read_cb_frees_and_closes (-4095) Z.opp false (-104)
           (TcpSocket.mk_uv_buf (Some 1%nat) 65536)
           (TcpSocket.attached 65536) ltac:(lia)).
Defined.
